(** * My-Quant-Strates: the two decision engines, embedded and verified

    Two Python modules are embedded here:

    - [growth_trend_resonance/strategy.py]: the cross-sectional selection
      strategy [StockSelectStrategy] with its indicator [ImprovedMTM]
      (module [GrowthTrend]);
    - [macd_kdj_atr/strategy.py]: the per-instrument signal automaton
      [MACDKDJStrategy] (module [MacdKdj]).

    Numbers.  A Python [float] is modelled by the type [float] below: either
    [NaN] or a finite value carried as an exact rational.  Comparisons with
    [NaN] are false, arithmetic propagates [NaN], and a division by zero
    raises [ZeroDivisionError], as in Python.  Rounding and the infinities of
    IEEE doubles are abstracted away: every theorem below is about the
    decision logic over exact values.

    Exceptions.  Code that can raise returns a [result]; [Raise e] is an
    exception that leaves the method. *)

From Stdlib Require Import QArith Qabs Qround Lqa ZArith Lia.
From stdpp Require Import gmap strings list sorting.

Local Open Scope Z_scope.

(** ** Exceptions *)

Inductive exn : Set :=
| ZeroDivisionError
| ValueError
| KeyError
| IndexError
| StopIteration
| OverflowError.

Inductive result (A : Type) : Type :=
| Ok (a : A)
| Raise (e : exn).
Arguments Ok {A} a.
Arguments Raise {A} e.

#[global] Instance result_ret : MRet result := λ A a, Ok a.
#[global] Instance result_bind : MBind result := λ A B f r,
  match r with
  | Ok a => f a
  | Raise e => Raise e
  end.

(** [mapM] for list comprehensions whose body can raise: the elements are
    evaluated left to right and the first exception leaves the
    comprehension. *)
Fixpoint mapR {A B} (f : A → result B) (l : list A) : result (list B) :=
  match l with
  | [] => Ok []
  | x :: l' => y ← f x; ys ← mapR f l'; Ok (y :: ys)
  end.

(** ** Python floats *)

Module Float.

Inductive float : Set :=
| NaN
| Fin (q : Q).

Definition isnan (x : float) : bool :=
  match x with NaN => true | Fin _ => false end.

(** [x < y], [x <= y], [x == y]; [x > y] is [flt y x], [x >= y] is
    [fle y x]. *)
Definition flt (x y : float) : bool :=
  match x, y with
  | Fin a, Fin b => negb (Qle_bool b a)
  | _, _ => false
  end.

Definition fle (x y : float) : bool :=
  match x, y with
  | Fin a, Fin b => Qle_bool a b
  | _, _ => false
  end.

Definition feqb (x y : float) : bool :=
  match x, y with
  | Fin a, Fin b => Qeq_bool a b
  | _, _ => false
  end.

Definition fadd (x y : float) : float :=
  match x, y with
  | Fin a, Fin b => Fin (a + b)
  | _, _ => NaN
  end.

Definition fsub (x y : float) : float :=
  match x, y with
  | Fin a, Fin b => Fin (a - b)
  | _, _ => NaN
  end.

Definition fmul (x y : float) : float :=
  match x, y with
  | Fin a, Fin b => Fin (a * b)
  | _, _ => NaN
  end.

(** [x / y]: Python tests the divisor first, so [nan / 0.0] raises too. *)
Definition fdiv (x y : float) : result float :=
  match y with
  | Fin b =>
      if Qeq_bool b 0 then Raise ZeroDivisionError
      else match x with
           | Fin a => Ok (Fin (a / b))
           | NaN => Ok NaN
           end
  | NaN => Ok NaN
  end.

(** Truth value of a float used as a condition: zero is false, everything
    else (NaN included) is true. *)
Definition truthy (x : float) : bool :=
  match x with
  | NaN => true
  | Fin a => negb (Qeq_bool a 0)
  end.

(** The builtin [max(a, b)]: the first argument is kept unless the second
    is strictly greater. *)
Definition max2 (a b : float) : float := if flt a b then b else a.

(** The builtins [min(v)] and [max(v)] on a list: [ValueError] on the empty
    list, otherwise the first minimal (maximal) element. *)
Definition py_min (v : list float) : result float :=
  match v with
  | [] => Raise ValueError
  | x :: v' => Ok (foldl (λ m y, if flt y m then y else m) x v')
  end.

Definition py_max (v : list float) : result float :=
  match v with
  | [] => Raise ValueError
  | x :: v' => Ok (foldl (λ m y, if flt m y then y else m) x v')
  end.

(** [int(x)]: truncation toward zero; [int(nan)] raises [ValueError]. *)
Definition Qtrunc (q : Q) : Z := Z.quot (Qnum q) (Zpos (Qden q)).

Definition py_int (x : float) : result Z :=
  match x with
  | NaN => Raise ValueError
  | Fin q => Ok (Qtrunc q)
  end.

(** [sum(l)]: left to right, starting from 0. *)
Definition py_sum (l : list float) : float := foldl fadd (Fin 0) l.

(** Propositional readings of the comparisons. *)
Definition Flt (x y : float) : Prop := flt x y = true.
Definition Fle (x y : float) : Prop := fle x y = true.

End Float.
Import Float.

(** ** The MACD-KDJ-ATR signal automaton ([macd_kdj_atr/strategy.py]) *)

Module MacdKdj.

(** The calls that [next] makes through its helpers: [self.buy(size=..)],
    [self.sell(size=..)] and the call [self.close()] of [_exit_all].
    [__init__] rebinds the attribute [close] of the strategy object to the
    close line of the data, so what the call [self.close()] does is decided
    inside the backtesting library; [Close] stands for the call itself, and
    nothing below depends on its effect. *)
Inductive Order : Set :=
| Buy (size : Z)
| Sell (size : Z)
| Close.

(** What [next] reads on one bar: the position held at the broker, the
    account value, and the current (and, for KDJ, previous) indicator values. *)
Record Bar : Set := {
  position_size : Z;       (* self.position.size *)
  value : float;           (* self.broker.getvalue() *)
  close : float;           (* self.close[0] *)
  ATR : float;             (* self.ATR[0] *)
  kdj_k : float;           (* self.kdj.k[0] *)
  kdj_d : float;
  kdj_j : float;
  kdj_k_pre : float;       (* self.kdj.k[-1] *)
  kdj_d_pre : float;
  kdj_j_pre : float;
  macd_macd : float;       (* self.macd.macd[0] *)
  macd_signal : float;
  macd_histogram : float;
  volume : float;          (* self.data.volume[0] *)
  sma_volume : float;      (* self.sma_volume[0] *)
  rsi : float;             (* self.rsi[0] *)
  sma10 : float            (* self.sma10[0] *)
}.

(** The attributes of the strategy object that [next] reads and writes. *)
Record MACDKDJStrategy : Set := {
  order : option Order;
  buy_count : Z;
  last_buy_price : float
}.

(** [__init__] *)
Definition init : MACDKDJStrategy :=
  {| order := None; buy_count := 0; last_buy_price := Fin 0 |}.

(** [int(max((self.broker.getvalue() * 0.005) / (self.ATR[0] * 300 * 0.1), 1))],
    the expression shared by the four order helpers. *)
Definition order_size (value atr : float) : result Z :=
  q ← fdiv (fmul value (Fin 0.005)) (fmul (fmul atr (Fin 300)) (Fin 0.1));
  py_int (max2 q (Fin 1)).

Definition _enter_long (self : MACDKDJStrategy) (b : Bar)
  : result (MACDKDJStrategy * list Order) :=
  size ← order_size (value b) (ATR b);
  Ok ({| order := Some (Buy size); last_buy_price := close b; buy_count := 1 |},
      [Buy size]).

Definition _enter_short (self : MACDKDJStrategy) (b : Bar)
  : result (MACDKDJStrategy * list Order) :=
  size ← order_size (value b) (ATR b);
  Ok ({| order := Some (Sell size); last_buy_price := close b; buy_count := 1 |},
      [Sell size]).

Definition _buy_more (self : MACDKDJStrategy) (b : Bar)
  : result (MACDKDJStrategy * list Order) :=
  size ← order_size (value b) (ATR b);
  Ok ({| order := Some (Buy size); last_buy_price := close b;
         buy_count := buy_count self + 1 |},
      [Buy size]).

Definition _sell_more (self : MACDKDJStrategy) (b : Bar)
  : result (MACDKDJStrategy * list Order) :=
  size ← order_size (value b) (ATR b);
  Ok ({| order := Some (Sell size); last_buy_price := close b;
         buy_count := buy_count self + 1 |},
      [Sell size]).

Definition _exit_all (self : MACDKDJStrategy) (b : Bar)
  : result (MACDKDJStrategy * list Order) :=
  Ok ({| order := Some Close; last_buy_price := last_buy_price self;
         buy_count := 0 |},
      [Close]).

(** The conditions of [next], one definition per [if]/[elif] test. *)
Definition long_pyramid_cond (self : MACDKDJStrategy) (b : Bar) : bool :=
  flt (fadd (last_buy_price self) (fmul (Fin 0.4) (ATR b))) (close b)
  && (buy_count self <? 3)
  && flt (sma_volume b) (volume b).

Definition long_stop_cond (self : MACDKDJStrategy) (b : Bar) : bool :=
  flt (close b) (fsub (last_buy_price self) (fmul (Fin 3) (ATR b))).

Definition long_take_cond (self : MACDKDJStrategy) (b : Bar) : bool :=
  flt (fadd (last_buy_price self) (fmul (Fin 2) (ATR b))) (close b).

Definition short_pyramid_cond (self : MACDKDJStrategy) (b : Bar) : bool :=
  flt (close b) (fsub (last_buy_price self) (fmul (Fin 0.5) (ATR b)))
  && (buy_count self <? 3).

Definition short_stop_cond (self : MACDKDJStrategy) (b : Bar) : bool :=
  flt (fadd (last_buy_price self) (fmul (Fin 3) (ATR b))) (close b).

Definition short_exit_cond (b : Bar) : bool :=
  flt (Fin 0) (macd_histogram b)
  && (flt (kdj_j_pre b) (kdj_k_pre b) && flt (kdj_k_pre b) (kdj_j b))
  && (flt (kdj_j_pre b) (kdj_d_pre b) && flt (kdj_d_pre b) (kdj_j b)).

Definition long_entry_cond (b : Bar) : bool :=
  flt (macd_histogram b) (Fin 0)
  && (flt (kdj_j_pre b) (kdj_k_pre b) && flt (kdj_k_pre b) (kdj_j b))
  && (flt (kdj_j_pre b) (kdj_d_pre b) && flt (kdj_d_pre b) (kdj_j b))
  && flt (rsi b) (Fin 70).

Definition short_entry_cond (b : Bar) : bool :=
  flt (Fin 0) (macd_macd b)
  && flt (Fin 0) (macd_signal b)
  && (flt (kdj_k_pre b) (kdj_j_pre b) && flt (kdj_j b) (kdj_k_pre b))
  && (flt (kdj_d_pre b) (kdj_j_pre b) && flt (kdj_j b) (kdj_d_pre b))
  && flt (close b) (sma10 b)
  && flt (Fin 30) (rsi b).

(** [MACDKDJStrategy.next]: the new attributes and the broker calls made on
    this bar. *)
Definition next (self : MACDKDJStrategy) (b : Bar)
  : result (MACDKDJStrategy * list Order) :=
  match order self with
  | Some _ => Ok (self, [])
  | None =>
      if 0 <? position_size b then
        if long_pyramid_cond self b then _buy_more self b
        else if long_stop_cond self b then _exit_all self b
        else if long_take_cond self b then _exit_all self b
        else Ok (self, [])
      else if position_size b <? 0 then
        if short_pyramid_cond self b then _sell_more self b
        else if short_stop_cond self b then _exit_all self b
        else if short_exit_cond b then _exit_all self b
        else Ok (self, [])
      else
        if long_entry_cond b then _enter_long self b
        else if short_entry_cond b then _enter_short self b
        else Ok (self, [])
  end.

(** The strategy object over a run: [next] is called on successive bars, and
    between two bars the harness may settle the pending order.  The source
    never clears [self.order] itself, so the clearing is taken as an event of
    the harness; the invariants below hold with or without it. *)
Inductive step : MACDKDJStrategy → MACDKDJStrategy → Prop :=
| step_next self b self' orders :
    next self b = Ok (self', orders) → step self self'
| step_settle self :
    step self {| order := None; buy_count := buy_count self;
                 last_buy_price := last_buy_price self |}.

Inductive reachable : MACDKDJStrategy → Prop :=
| reach_init : reachable init
| reach_step self self' : reachable self → step self self' → reachable self'.

(** The sizing rule in the words of the specification:
    [max(1, floor(equity × 0.005 / (ATR × 300 × 0.1)))]. *)
Definition spec_size (equity atr : Q) : Z :=
  Z.max 1 (Qfloor (equity * 0.005 / (atr * 300 * 0.1))).


(** A flat bar on which J = 3K - 2D rises from -60 to 38 while K and D
    (prior 0 and 30) rise to 42 and 44. *)
Definition cross_bar : Bar := {|
  position_size := 0; value := Fin 1000000; close := Fin 100; ATR := Fin 2;
  kdj_k := Fin 42; kdj_d := Fin 44; kdj_j := Fin 38;
  kdj_k_pre := Fin 0; kdj_d_pre := Fin 30; kdj_j_pre := Fin (-60);
  macd_macd := Fin (-3); macd_signal := Fin (-2); macd_histogram := Fin (-1);
  volume := Fin 5000; sma_volume := Fin 4000; rsi := Fin 50; sma10 := Fin 99
|}.

(** A bar with a long position on which the close is above the last entry
    price by more than two ATR and the volume is above its average. *)
Definition rally_bar : Bar := {|
  position_size := 83; value := Fin 1000000; close := Fin 110; ATR := Fin 2;
  kdj_k := Fin 60; kdj_d := Fin 55; kdj_j := Fin 70;
  kdj_k_pre := Fin 50; kdj_d_pre := Fin 50; kdj_j_pre := Fin 50;
  macd_macd := Fin 1; macd_signal := Fin 1; macd_histogram := Fin 0;
  volume := Fin 5000; sma_volume := Fin 4000; rsi := Fin 60; sma10 := Fin 99
|}.

(** The strategy after a long entry at 100 whose order has settled. *)
Definition long_at_100 : MACDKDJStrategy :=
  {| order := None; buy_count := 1; last_buy_price := Fin 100 |}.

(** *** The indicators that [__init__] builds, and a whole run *)

(** [abs(x)] *)
Definition fabs (x : float) : float :=
  match x with
  | NaN => NaN
  | Fin a => Fin (Qabs a)
  end.

(** What the true range reads on one bar: [self.high(0)], [self.low(0)]
    and [self.close(-1)]. *)
Record Range : Set := {
  r_high : float;
  r_low : float;
  r_close_prev : float
}.

(** [self.TR = btind.Max(high - low, abs(high - close(-1)),
    abs(low - close(-1)))]: on each bar, [max] of the three values. *)
Definition TR (r : Range) : result float :=
  py_max [fsub (r_high r) (r_low r);
          fabs (fsub (r_high r) (r_close_prev r));
          fabs (fsub (r_low r) (r_close_prev r))].

(** [btind.SimpleMovingAverage(x, period=n)], given the last [n] values
    of [x]: their sum divided by [n]. *)
Definition SimpleMovingAverage (period : nat) (xs : list float) : result float :=
  fdiv (py_sum xs) (Fin (inject_Z (Z.of_nat period))).

(** The parameter [N1] and [self.ATR], given the last [N1] bars. *)
Definition N1 : nat := 15.

Definition ATR_of (window : list Range) : result float :=
  trs ← mapR TR window;
  SimpleMovingAverage N1 trs.




(** [next] called on successive bars.  The strategy defines no order
    notification, and nothing in the source assigns [self.order] besides the
    five helpers. *)
Fixpoint run (self : MACDKDJStrategy) (bars : list Bar)
  : result (MACDKDJStrategy * list Order) :=
  match bars with
  | [] => Ok (self, [])
  | b :: bars' =>
      '(self1, orders1) ← next self b;
      '(self2, orders2) ← run self1 bars';
      Ok (self2, orders1 ++ orders2)
  end.

(** A window of flat bars, and one with movement. *)
Definition flat_range : Range :=
  {| r_high := Fin 10; r_low := Fin 10; r_close_prev := Fin 10 |}.

Definition moving_range : Range :=
  {| r_high := Fin 12; r_low := Fin 9; r_close_prev := Fin 13 |}.

End MacdKdj.

(** ** The growth-momentum selection strategy
       ([growth_trend_resonance/strategy.py]) *)

Module GrowthTrend.

(** *** Indicators *)

(** [SolvencyAbility.next]: [(cash - st_debt) / net_assets], or NaN when
    [net_assets] is zero. *)
Record balance_sheet : Set := {
  short_term_borrowing : float;
  short_term_bonds : float;
  non_current_liabilities_due_in_one_year : float;
  monetary_capital : float;
  trading_finan_assets : float;
  net_operating_cash : float;
  total_assets : float;
  total_liabilities : float
}.

Definition SolvencyAbility_next (d : balance_sheet) : result float :=
  let st_debt :=
    fadd (fadd (short_term_borrowing d) (short_term_bonds d))
         (non_current_liabilities_due_in_one_year d) in
  let cash :=
    fsub (fadd (monetary_capital d) (trading_finan_assets d))
         (net_operating_cash d) in
  let net_assets := fsub (total_assets d) (total_liabilities d) in
  (* [net_assets != 0] is true for NaN *)
  if negb (feqb net_assets (Fin 0)) then fdiv (fsub cash st_debt) net_assets
  else Ok NaN.

(** [ImprovedMTM]: parameters [k] and [period], the deque [history], and
    what [next] reads from the data on one bar. *)
Record mtm_params : Set := { k : float; period : nat }.

Definition mtm_default : mtm_params := {| k := Fin 1.08; period := 20 |}.

Record mtm_bar : Set := {
  bar_high : float;        (* self.data.high[0] *)
  bar_low : float;         (* self.data.low[0] *)
  bar_close : float;       (* self.data.close[0] *)
  bar_close_prev : float   (* self.data.close[-1] *)
}.

(** [collections.deque(maxlen=..).append]: when the deque is full the
    oldest element is discarded. *)
Definition deque_append (maxlen : nat) (h : list float) (x : float) : list float :=
  let h' := h ++ [x] in drop (length h' - maxlen) h'.

(** [ImprovedMTM.next]: the new deque and the value written to the line
    [improved_mtm]. *)
Definition ImprovedMTM_next (p : mtm_params) (history : list float) (b : mtm_bar)
  : result (list float * float) :=
  ratio ← fdiv (bar_high b) (bar_low b);
  q ← fdiv (bar_close b) (bar_close_prev b);
  let ret := fsub q (Fin 1) in
  let history' :=
    if flt ratio (k p) then deque_append (period p) history ret
    else deque_append (period p) history (Fin 0) in
  Ok (history', py_sum history').

(** The indicator over a run of bars, from the empty deque of [__init__]:
    the deque after the last bar and the values written, oldest first. *)
Fixpoint ImprovedMTM_run (p : mtm_params) (history : list float) (bars : list mtm_bar)
  : result (list float * list float) :=
  match bars with
  | [] => Ok (history, [])
  | b :: bars' =>
      '(history', out) ← ImprovedMTM_next p history b;
      '(history'', outs) ← ImprovedMTM_run p history' bars';
      Ok (history'', out :: outs)
  end.

(** *** Dates *)

Record date : Set := { year : Z; month : Z; day : Z }.

#[global] Instance date_eq_dec : EqDecision date.
Proof. solve_decision. Defined.

Definition is_leap (y : Z) : bool :=
  (y mod 4 =? 0) && (negb (y mod 100 =? 0) || (y mod 400 =? 0)).

Definition days_in_month (y m : Z) : Z :=
  if m =? 2 then (if is_leap y then 29 else 28)
  else if (m =? 4) || (m =? 6) || (m =? 9) || (m =? 11) then 30
  else 31.

(** [dt - timedelta(days=1)]; [date.min - timedelta(days=1)] overflows. *)
Definition prev_day (dt : date) : result date :=
  if 1 <? day dt then
    Ok {| year := year dt; month := month dt; day := day dt - 1 |}
  else if 1 <? month dt then
    Ok {| year := year dt; month := month dt - 1;
          day := days_in_month (year dt) (month dt - 1) |}
  else if 1 <? year dt then
    Ok {| year := year dt - 1; month := 12; day := 31 |}
  else Raise OverflowError.

Definition target : gset (Z * Z) :=
  {[ (1, 31); (4, 30); (7, 15); (8, 31); (10, 31) ]}.

(** *** The strategy *)

Record params : Set := {
  sel_TTM : float;
  sel_ACC : float;
  sel_NPAP : float;
  sel_Solvency : float;
  sel_ROE : float;
  sel_daily_value : float;
  sel_analyst_rev : float;
  sel_analyst_growth : float;
  selnum_final : Z;
  reserve : float
}.

Definition default_params : params := {|
  sel_TTM := Fin 0.3; sel_ACC := Fin 0.5; sel_NPAP := Fin 0.5;
  sel_Solvency := Fin (-1); sel_ROE := Fin 0.01; sel_daily_value := Fin 0.9;
  sel_analyst_rev := Fin 0.2; sel_analyst_growth := Fin 0.2;
  selnum_final := 30; reserve := Fin 0.05
|}.

(** One data feed on the current bar: its name, the current value ([[0]])
    of each line that [__init__] builds on it, and the raw fields that
    [rebalance] reads. *)
Record feed : Set := {
  _name : string;
  ttm : float;              (* net_profit_after / net_profit_after(-1) - 1 *)
  acc : float;              (* AccIndex *)
  npap : float;             (* net_profit_after / net_profit_after(-1) *)
  solv : float;             (* SolvencyAbility *)
  roe : float;              (* ROE_after *)
  vol : float;              (* SMA(value, 5) *)
  mtm : float;              (* ImprovedMTM *)
  rev : float;              (* analyst_revision *)
  gro : float;              (* analyst_growth *)
  recent_issuance : float;
  is_ST : float;
  high : float;
  low : float;
  volume : float
}.

Record StockSelectStrategy : Set := {
  p : params;
  last_rebalance : option date;
  target_pct : float
}.

(** [__init__] *)
Definition init (p : params) : result StockSelectStrategy :=
  t ← fdiv (fsub (Fin 1) (reserve p)) (Fin (inject_Z (selnum_final p)));
  Ok {| p := p; last_rebalance := None; target_pct := t |}.

(** The dictionaries [{d._name: line for d in self.datas}]: a later feed
    overwrites an earlier one of the same name. *)
Definition line_dict (f : feed → float) (datas : list feed) : gmap string float :=
  foldl (λ m d, <[_name d := f d]> m) ∅ datas.

(** [self.x[n][0]] *)
Definition getitem (m : gmap string float) (n : string) : result float :=
  match m !! n with
  | Some x => Ok x
  | None => Raise KeyError
  end.

(** [next(d for d in self.datas if d._name == n)] *)
Definition next_data (datas : list feed) (n : string) : result feed :=
  match List.find (λ d, String.eqb (_name d) n) datas with
  | Some d => Ok d
  | None => Raise StopIteration
  end.

(** [sorted(l, key=lambda x: x[1], reverse=True)]: the stable sort by
    decreasing key.  Python's result is determined by this contract whenever
    no key is NaN; on NaN keys the order Python produces depends on its
    sorting algorithm, and no theorem below that speaks of order is stated
    for NaN keys. *)
Fixpoint insert_desc (x : string * float) (l : list (string * float))
  : list (string * float) :=
  match l with
  | [] => [x]
  | y :: l' => if flt x.2 y.2 then y :: insert_desc x l' else x :: l
  end.

Definition sorted_desc (l : list (string * float)) : list (string * float) :=
  foldr insert_desc [] l.

(** [[(n, m[n][0]) for n in names]] *)
Definition keyed (m : gmap string float) (names : list string)
  : result (list (string * float)) :=
  mapR (λ n, x ← getitem m n; Ok (n, x)) names.

(** Step 1 of [rebalance]: the base pool. *)
Definition top_third (datas : list feed) : result (list string) :=
  let names := _name <$> datas in
  let universe := names in
  ttm_vals ← keyed (line_dict ttm datas) universe;
  Ok (fst <$> take (length universe / 3)%nat (sorted_desc ttm_vals)).

Definition base_pool (datas : list feed) : result (list string) :=
  top ← top_third datas;
  accs ← keyed (line_dict acc datas) top;
  let acc_vals := sorted_desc (filter (λ nx, flt (Fin 0) nx.2 = true) accs) in
  Ok (fst <$> take (length acc_vals / 2)%nat acc_vals).

(** The body of the hard-filter loop: [true] when [n] is appended to
    [eligible]. *)
Definition passes (datas : list feed) (vol_thresh : float) (n : string)
  : result bool :=
  d ← next_data datas n;
  x ← getitem (line_dict npap datas) n;
  if fle x (Fin 0.5) then Ok false else
  y ← getitem (line_dict solv datas) n;
  if fle y (Fin (-1)) then Ok false else
  z ← getitem (line_dict roe datas) n;
  if fle z (Fin 0.01) then Ok false else
  v ← getitem (line_dict vol datas) n;
  if flt v vol_thresh then Ok false else
  if truthy (recent_issuance d) then Ok false else
  if truthy (is_ST d) then Ok false else
  Ok true.

Fixpoint hard_filter (datas : list feed) (vol_thresh : float) (base : list string)
  : result (list string) :=
  match base with
  | [] => Ok []
  | n :: base' =>
      b ← passes datas vol_thresh n;
      rest ← hard_filter datas vol_thresh base';
      Ok (if (b : bool) then n :: rest else rest)
  end.

(** The local function [norm]. *)
Definition norm (arr : list float) : result (list float) :=
  let v := filter (λ x, isnan x = false) arr in
  mn ← py_min v;
  mx ← py_max v;
  mapR (λ x, if feqb mn mx then Ok (Fin 50)
             else q ← fdiv (fsub x mn) (fsub mx mn); Ok (fmul q (Fin 100)))
       arr.

(** [[self.x[n][0] for n in names]] *)
Definition column (m : gmap string float) (names : list string)
  : result (list float) :=
  mapR (getitem m) names.

(** [l[i]] *)
Definition at_index (l : list float) (i : nat) : result float :=
  match l !! i with
  | Some x => Ok x
  | None => Raise IndexError
  end.

(** The [while] loop of the final selection, from index [i] on: [comp] is
    the part of the ranked list not yet visited. *)
Fixpoint walk (N : Z) (datas : list feed) (comp : list (string * float))
  (final : list string) : result (list string) :=
  match comp with
  | [] => Ok final
  | (n, _) :: comp' =>
      if Z.of_nat (length final) <? N then
        d ← next_data datas n;
        if negb (feqb (high d) (low d) || feqb (volume d) (Fin 0))
        then walk N datas comp' (final ++ [n])
        else walk N datas comp' final
      else Ok final
  end.

Section Rebalance.

(** [np.percentile], of the numerical library. *)
Variable percentile : list float → Q → result float.

(** Steps 2 and 3: the hard filters and the fallback to the base pool. *)
Definition eligible_set (self : StockSelectStrategy) (datas : list feed)
  (base : list string) : result (list string) :=
  raw_vols ← column (line_dict vol datas) base;
  vol_thresh ← percentile raw_vols 90%Q;
  eligible ← hard_filter datas vol_thresh base;
  Ok (if Z.of_nat (length eligible) <? selnum_final (p self) then base
      else eligible).

(** Normalisation, composite score and the descending sort of [comp]. *)
Definition ranked (self : StockSelectStrategy) (datas : list feed)
  (eligible : list string) : result (list (string * float)) :=
  ttm_n ← (column (line_dict ttm datas) eligible ≫= norm);
  acc_n ← (column (line_dict acc datas) eligible ≫= norm);
  npap_n ← (column (line_dict npap datas) eligible ≫= norm);
  solv_n ← (column (line_dict solv datas) eligible ≫= norm);
  roe_n ← (column (line_dict roe datas) eligible ≫= norm);
  vol_n ← (column (line_dict vol datas) eligible ≫= norm);
  mtm_n ← (column (line_dict mtm datas) eligible ≫= norm);
  rev_n ← (column (line_dict rev datas) eligible ≫= norm);
  gro_n ← (column (line_dict gro datas) eligible ≫= norm);
  comp ← mapR (λ '((i, n) : nat * string),
      a ← at_index ttm_n i; b ← at_index acc_n i; c ← at_index npap_n i;
      d ← at_index solv_n i; e ← at_index roe_n i; f ← at_index vol_n i;
      g ← at_index mtm_n i; h ← at_index rev_n i; r ← at_index gro_n i;
      let P := p self in
      Ok (n,
          fadd (fadd (fadd (fadd (fadd (fadd (fadd (fadd
            (fmul (sel_TTM P) a)
            (fmul (sel_ACC P) b))
            (fmul (sel_NPAP P) c))
            (fmul (fsub (Fin 1) (sel_Solvency P)) d))
            (fmul (sel_ROE P) e))
            (fmul (sel_daily_value P) f))
            g)
            (fmul (sel_analyst_rev P) h))
            (fmul (sel_analyst_growth P) r)))
    (imap pair eligible);
  Ok (sorted_desc comp).

(** [rebalance] up to the list [final]. *)
Definition select_final (self : StockSelectStrategy) (datas : list feed)
  : result (list string) :=
  base ← base_pool datas;
  eligible ← eligible_set self datas base;
  comp ← ranked self datas eligible;
  walk (selnum_final (p self)) datas comp [].

(** [rebalance]: the calls [order_target_percent(d, target=..)], one per
    feed. *)
Definition rebalance (self : StockSelectStrategy) (datas : list feed)
  : result (list (feed * float)) :=
  final ← select_final self datas;
  Ok ((λ d, (d, if bool_decide (_name d ∈ final) then target_pct self
                else Fin 0)) <$> datas).

(** [StockSelectStrategy.next], called with the date [dt] of the current
    bar of [self.datas[0]]. *)
Definition next (self : StockSelectStrategy) (dt : date) (datas : list feed)
  : result (StockSelectStrategy * list (feed * float)) :=
  if decide (last_rebalance self = Some dt) then Ok (self, [])
  else
    y ← prev_day dt;
    if decide ((month y, day y) ∈ target) then
      orders ← rebalance self datas;
      Ok ({| p := p self; last_rebalance := Some dt;
             target_pct := target_pct self |}, orders)
    else Ok (self, []).

End Rebalance.

(** A model of [np.percentile(a, q)] with its default linear
    interpolation between the two nearest ranks of the sorted data; NaN when
    [a] is empty or holds a NaN. *)
Definition np_percentile (a : list float) (q : Q) : result float :=
  if existsb isnan a then Ok NaN
  else
    let s := reverse (snd <$> sorted_desc ((λ x, (EmptyString, x)) <$> a)) in
    let pos := (q / 100 * inject_Z (Z.of_nat (length s - 1)))%Q in
    let lo := Z.to_nat (Qfloor pos) in
    let frac := (pos - inject_Z (Qfloor pos))%Q in
    match s !! lo, s !! Nat.min (lo + 1) (length s - 1) with
    | Some (Fin x), Some (Fin y) => Ok (Fin (x + frac * (y - x)))
    | _, _ => Ok NaN
    end.

(** *** The specification's wording, for comparison *)

(** The last [n] elements of a list. *)
Definition lastn {A} (n : nat) (l : list A) : list A := drop (length l - n) l.

(** The high/low ratio and the one-bar return of a bar whose divisors are
    not zero. *)
Definition bar_ok (b : mtm_bar) : Prop :=
  feqb (bar_low b) (Fin 0) = false ∧ feqb (bar_close_prev b) (Fin 0) = false.

Definition quotient (x y : float) : float :=
  match fdiv x y with Ok q => q | Raise _ => NaN end.

Definition ratio (b : mtm_bar) : float := quotient (bar_high b) (bar_low b).

Definition raw_return (b : mtm_bar) : float :=
  fsub (quotient (bar_close b) (bar_close_prev b)) (Fin 1).

(** The masked return: the raw return exactly when the ratio is strictly
    below [k], and 0 otherwise. *)
Definition masked_return (p : mtm_params) (b : mtm_bar) : float :=
  if flt (ratio b) (k p) then raw_return b else Fin 0.

(** The stable sort of feeds by decreasing value of a factor. *)
Fixpoint insert_by (f : feed → float) (x : feed) (l : list feed) : list feed :=
  match l with
  | [] => [x]
  | y :: l' => if flt (f x) (f y) then y :: insert_by f x l' else x :: l
  end.

Definition rank_by (f : feed → float) (l : list feed) : list feed :=
  foldr (insert_by f) [] l.


(** An instrument can be selected when it is neither halted nor without
    traded volume. *)
Definition tradable (datas : list feed) (n : string) : bool :=
  match next_data datas n with
  | Ok d => negb (feqb (high d) (low d) || feqb (volume d) (Fin 0))
  | Raise _ => false
  end.

(** *** Closed forms of the stages, used in the proofs *)

(** The pair that [rebalance] sorts for a feed and a factor. *)
Definition pair_of (f : feed → float) (d : feed) : string * float :=
  (_name d, f d).

(** Decreasing order of the keys. *)
Definition descending (l : list (string * float)) : Prop :=
  StronglySorted (λ a b, Fle b.2 a.2) l.

(** The feeds of the top third and of the base pool. *)
Definition third (datas : list feed) : list feed :=
  take (length datas / 3)%nat (rank_by ttm datas).

Definition pool (datas : list feed) : list feed :=
  let remainder := filter (λ d, flt (Fin 0) (acc d) = true) (third datas) in
  take (length remainder / 2)%nat (rank_by acc remainder).

(** The value [norm] gives to one entry once the minimum and the maximum
    of the defined entries are known. *)
Definition scale (mn mx : Q) (x : float) : float :=
  if Qeq_bool mn mx then Fin 50
  else match x with
       | Fin a => Fin ((a - mn) / (mx - mn) * 100)
       | NaN => NaN
       end.

(** *** More of the source: the acceleration indicator, dates, filters *)

Section AccIndex.

(** [LinearRegression().fit(X_poly, y).coef_[0]], of the numerical
    library: the coefficient of t² fitted on the values of the deque. *)
Variable fit : list float → float.

(** [AccIndex.next]: the new deque and the value written to the line
    [acc]. *)
Definition AccIndex_next (window : nat) (history : list float) (x : float)
  : list float * float :=
  let history' := deque_append window history x in
  (history', if decide (length history' = window) then fit history' else NaN).

(** The indicator over the successive values of [net_profit_z]: the values
    written, oldest first. *)
Fixpoint AccIndex_run (window : nat) (history : list float) (xs : list float)
  : list float :=
  match xs with
  | [] => []
  | x :: xs' =>
      let '(history', out) := AccIndex_next window history x in
      out :: AccIndex_run window history' xs'
  end.

End AccIndex.

(** A date of the proleptic Gregorian calendar, as [datetime.date] holds
    them. *)
Definition valid_date (dt : date) : Prop :=
  1 ≤ year dt ≤ 9999 ∧ 1 ≤ month dt ≤ 12
  ∧ 1 ≤ day dt ≤ days_in_month (year dt) (month dt).

(** The days that follow the days of [target]. *)
Definition rebalance_days : gset (Z * Z) :=
  {[ (2, 1); (5, 1); (7, 16); (9, 1); (11, 1) ]}.


(** The test that the final selection skips on. *)
Definition halted (d : feed) : bool :=
  feqb (high d) (low d) || feqb (volume d) (Fin 0).

End GrowthTrend.

(** ** Concrete data *)

Module Scenario.
Import GrowthTrend.

(** A feed with the given name, TTM growth, acceleration and solvency; the
    other factors are unremarkable and the instrument trades. *)
Definition simple_feed (name : string) (t a s : float) : feed := {|
  _name := name; ttm := t; acc := a; npap := Fin 1; solv := s;
  roe := Fin 0.1; vol := Fin 1000; mtm := Fin 0; rev := Fin 0; gro := Fin 0;
  recent_issuance := Fin 0; is_ST := Fin 0;
  high := Fin 11; low := Fin 10; volume := Fin 1000
|}.

(** The scenario of the specification: TTM growth [0.30, 0.10, -0.05] and
    acceleration [1.5, -0.2, 0.8]. *)
Definition three : list feed := [
  simple_feed "A" (Fin 0.30) (Fin 1.5) (Fin 0);
  simple_feed "B" (Fin 0.10) (Fin (-0.2)) (Fin 0);
  simple_feed "C" (Fin (-0.05)) (Fin 0.8) (Fin 0)
].

(** A company whose total assets equal its total liabilities: its solvency
    is NaN. *)
Definition no_net_assets : balance_sheet := {|
  short_term_borrowing := Fin 10; short_term_bonds := Fin 0;
  non_current_liabilities_due_in_one_year := Fin 5;
  monetary_capital := Fin 40; trading_finan_assets := Fin 3;
  net_operating_cash := Fin 2;
  total_assets := Fin 500; total_liabilities := Fin 500
|}.

(** Twelve instruments; the four of highest TTM growth have positive
    acceleration, and X, the one of highest acceleration, has NaN
    solvency. *)
Definition twelve : list feed := [
  simple_feed "X" (Fin 0.90) (Fin 2.0) NaN;
  simple_feed "Y" (Fin 0.80) (Fin 1.5) (Fin 0.5);
  simple_feed "Z" (Fin 0.70) (Fin 1.0) (Fin 0.4);
  simple_feed "W" (Fin 0.60) (Fin 0.5) (Fin 0.3);
  simple_feed "E" (Fin 0.50) (Fin 0.1) (Fin 0.2);
  simple_feed "F" (Fin 0.40) (Fin 0.1) (Fin 0.2);
  simple_feed "G" (Fin 0.30) (Fin 0.1) (Fin 0.2);
  simple_feed "H" (Fin 0.20) (Fin 0.1) (Fin 0.2);
  simple_feed "I" (Fin 0.10) (Fin 0.1) (Fin 0.2);
  simple_feed "J" (Fin 0.05) (Fin 0.1) (Fin 0.2);
  simple_feed "K" (Fin 0.04) (Fin 0.1) (Fin 0.2);
  simple_feed "L" (Fin 0.03) (Fin 0.1) (Fin 0.2)
].

(** The strategy object built by [__init__] with the default parameters. *)
Definition fresh : StockSelectStrategy := {|
  p := default_params; last_rebalance := None;
  target_pct := Fin ((1 - 0.05) / inject_Z 30)
|}.

Definition feb_1 : date := {| year := 2020; month := 2; day := 1 |}.

(** Three bars for the momentum indicator; the second has a high/low ratio
    of 1.1. *)
Definition calm_1 : mtm_bar :=
  {| bar_high := Fin 10.5; bar_low := Fin 10; bar_close := Fin 10.2;
     bar_close_prev := Fin 10 |}.
Definition wild : mtm_bar :=
  {| bar_high := Fin 11; bar_low := Fin 10; bar_close := Fin 10.71;
     bar_close_prev := Fin 10.2 |}.
Definition calm_2 : mtm_bar :=
  {| bar_high := Fin 10.8; bar_low := Fin 10.7; bar_close := Fin 10.71;
     bar_close_prev := Fin 10.71 |}.

(** The strategy object after the rebalance of 1 February 2020, and the
    orders that rebalance placed. *)
Definition rebalanced : StockSelectStrategy := {|
  p := default_params; last_rebalance := Some feb_1;
  target_pct := Fin ((1 - 0.05) / inject_Z 30)
|}.

Definition feb_orders : list (feed * float) :=
  Eval vm_compute in
    match rebalance np_percentile fresh twelve with
    | Ok orders => orders
    | Raise _ => []
    end.

(** The composite ranking of that rebalance. *)
Definition feb_ranking : list (string * float) :=
  Eval vm_compute in
    match ranked fresh twelve ["X"; "Y"] with
    | Ok comp => comp
    | Raise _ => []
    end.

(** The values of one factor over four instruments, and what [norm] makes
    of them. *)
Definition factor_values : list float := [Fin 3; NaN; Fin 1; Fin 2].

Definition factor_normalised : list float :=
  Eval vm_compute in
    match norm factor_values with
    | Ok out => out
    | Raise _ => []
    end.

End Scenario.

(** * Facts about the float model *)

Module FloatFacts.

Lemma flt_Fin (a b : Q) : flt (Fin a) (Fin b) = true ↔ (a < b)%Q.
Proof.
  simpl. rewrite negb_true_iff, <- not_true_iff_false, Qle_bool_iff.
  split; [apply Qnot_le_lt | apply Qlt_not_le].
Qed.

Lemma fle_Fin (a b : Q) : fle (Fin a) (Fin b) = true ↔ (a <= b)%Q.
Proof. simpl. apply Qle_bool_iff. Qed.

Lemma feqb_Fin (a b : Q) : feqb (Fin a) (Fin b) = true ↔ (a == b)%Q.
Proof. simpl. apply Qeq_bool_iff. Qed.

Lemma flt_inv (x y : float) :
  flt x y = true → ∃ a b, x = Fin a ∧ y = Fin b ∧ (a < b)%Q.
Proof.
  destruct x as [|a], y as [|b]; try discriminate.
  intros H. exists a, b. by rewrite <- flt_Fin.
Qed.

Lemma flt_false_Fin (a b : Q) : flt (Fin a) (Fin b) = false ↔ (b <= a)%Q.
Proof.
  simpl. rewrite negb_false_iff. apply Qle_bool_iff.
Qed.

(** Truncation and floor agree from 0 upwards. *)
Lemma Qtrunc_floor (q : Q) : (0 <= q)%Q → Qtrunc q = Qfloor q.
Proof.
  destruct q as [n d]. unfold Qle, Qtrunc, Qfloor. simpl. intros H.
  apply Z.quot_div_nonneg; lia.
Qed.

Lemma Qfloor_lt_1 (q : Q) : (q < 1)%Q → Qfloor q < 1.
Proof.
  intros H. destruct (Z_lt_le_dec (Qfloor q) 1) as [|Hge]; [done|].
  exfalso. apply (Qlt_not_le _ _ H).
  apply Qle_trans with (inject_Z (Qfloor q)); [|apply Qfloor_le].
  change 1%Q with (inject_Z 1). by rewrite <- Zle_Qle.
Qed.

Lemma Qfloor_ge_1 (q : Q) : (1 <= q)%Q → 1 ≤ Qfloor q.
Proof.
  intros H. change 1 with (Qfloor (inject_Z 1)) at 1.
  by apply Qfloor_resp_le.
Qed.

End FloatFacts.

(** * The signal automaton *)

Module MacdKdjFacts.
Import FloatFacts MacdKdj.

Lemma denominator_nonzero (a : Q) :
  ¬ (a == 0)%Q → Qeq_bool (a * 300 * 0.1) 0 = false.
Proof.
  intros Ha. apply not_true_iff_false. rewrite Qeq_bool_iff. intros H.
  apply Ha. lra.
Qed.

Lemma denominator_zero (a : Q) :
  (a == 0)%Q → Qeq_bool (a * 300 * 0.1) 0 = true.
Proof. intros Ha. apply Qeq_bool_iff. lra. Qed.

Lemma int_max2_1 (q : Q) :
  py_int (max2 (Fin q) (Fin 1)) = Ok (Z.max 1 (Qfloor q)).
Proof.
  unfold max2. destruct (flt (Fin q) (Fin 1)) eqn:E.
  - apply flt_Fin in E. apply Qfloor_lt_1 in E. simpl. f_equal.
    change (Qtrunc 1) with 1. lia.
  - apply flt_false_Fin in E. simpl. rewrite Qtrunc_floor by lra.
    apply Qfloor_ge_1 in E. f_equal. lia.
Qed.

(** The sizing expression evaluates to the formula whenever ATR is a
    non-zero number and the account value is a number. *)
Lemma order_size_Fin (e a : Q) :
  ¬ (a == 0)%Q → order_size (Fin e) (Fin a) = Ok (spec_size e a).
Proof.
  intros Ha. unfold order_size, fdiv. simpl.
  rewrite (denominator_nonzero a Ha). simpl. apply int_max2_1.
Qed.







(** What a successful call of [next] can have done: nothing, one full exit
    that resets the count, one entry that sets it to 1, or one add that
    found it below 3 and increments it. *)
Lemma next_inv self b self' orders :
  next self b = Ok (self', orders) →
  (orders = [] ∧ self' = self)
  ∨ (orders = [Close] ∧ buy_count self' = 0 ∧ position_size b ≠ 0)
  ∨ (∃ sz, order_size (value b) (ATR b) = Ok sz
       ∧ (orders = [Buy sz] ∨ orders = [Sell sz])
       ∧ ((position_size b = 0 ∧ buy_count self' = 1)
          ∨ (position_size b ≠ 0 ∧ buy_count self < 3
             ∧ buy_count self' = buy_count self + 1))).
Proof.
  unfold next, _buy_more, _sell_more, _enter_long, _enter_short, _exit_all,
    long_pyramid_cond, short_pyramid_cond.
  intros H.
  repeat match type of H with
  | context [match ?c with _ => _ end] => destruct c eqn:?
  | context [if ?c then _ else _] => destruct c eqn:?
  | context [order_size ?v ?t] => destruct (order_size v t) eqn:?; simpl in H
  end;
  try discriminate; inversion H; subst; clear H; simpl;
  repeat match goal with
  | E : _ && _ = true |- _ => apply andb_prop in E as [? ?]
  end;
  try (left; done);
  try (right; left; repeat split; lia);
  right; right; eexists; (split; [done|]); (split; [eauto|]); lia.
Qed.

(** The orders of one bar, by case. *)
Lemma next_orders self b self' orders :
  next self b = Ok (self', orders) →
  orders = [] ∨ orders = [Close]
  ∨ ∃ sz, order_size (value b) (ATR b) = Ok sz
          ∧ (orders = [Buy sz] ∨ orders = [Sell sz]).
Proof.
  intros H. destruct (next_inv _ _ _ _ H) as [[? _]|[[? _]|(sz & ? & ? & _)]];
    eauto.
Qed.



(** C6. In every reachable state of the strategy the pyramid count is
    between 0 and 3.  An add to a long or to a short position is only made
    when the count is below 3 and increments it by exactly 1, and every full
    exit (stop-loss, take-profit, short signal exit) is made by a step that
    sets the count to 0. *)
Theorem pyramid_count_bounded self :
  reachable self →
  0 ≤ buy_count self ≤ 3
  ∧ ∀ b self' orders, next self b = Ok (self', orders) →
      (position_size b ≠ 0 → ∀ sz, orders = [Buy sz] ∨ orders = [Sell sz] →
         buy_count self < 3 ∧ buy_count self' = buy_count self + 1)
      ∧ (orders = [Close] → buy_count self' = 0)
      ∧ (order self = None →
         (0 < position_size b ∧ long_pyramid_cond self b = false
            ∧ (long_stop_cond self b || long_take_cond self b) = true)
         ∨ (position_size b < 0 ∧ short_pyramid_cond self b = false
            ∧ (short_stop_cond self b || short_exit_cond b) = true) →
         orders = [Close] ∧ buy_count self' = 0)
      ∧ 0 ≤ buy_count self' ≤ 3.
Proof.
  intros Hr.
  assert (0 ≤ buy_count self ≤ 3) as Hb.
  { induction Hr as [|s s' _ IH Hs]; [simpl; lia|].
    destruct Hs as [s b s' os Hn|s]; [|done].
    destruct (next_inv _ _ _ _ Hn) as [[_ ->]|[(_ & ? & _)|(? & _ & _ & Hc)]];
      lia. }
  split; [done|]. intros b self' orders Hn.
  pose proof (next_inv _ _ _ _ Hn) as Hi.
  split; [|split; [|split]].
  - intros Hp sz Ho.
    destruct Hi as [[-> _]|[(-> & _)|(sz' & _ & _ & Hc)]];
      [destruct Ho; discriminate ..|]. lia.
  - intros ->.
    destruct Hi as [[? _]|[(_ & ? & _)|(sz' & _ & [?|?] & _)]];
      by try discriminate.
  - intros Hnone Hexit.
    assert (orders = [Close]) as ->; [|split; [done|]].
    + revert Hn. unfold next, _exit_all. rewrite Hnone.
      destruct Hexit as [(Hp & -> & Hc)|(Hp & -> & Hc)].
      * apply Z.ltb_lt in Hp as ->.
        destruct (long_stop_cond self b); simpl in Hc;
          [|rewrite Hc]; by intros [= <- <-].
      * assert ((0 <? position_size b) = false) as -> by (apply Z.ltb_ge; lia).
        apply Z.ltb_lt in Hp as ->.
        destruct (short_stop_cond self b); simpl in Hc;
          [|rewrite Hc]; by intros [= <- <-].
    + destruct Hi as [[? _]|[(_ & ? & _)|(sz' & _ & [?|?] & _)]];
        by try discriminate.
  - destruct Hi as [[_ ->]|[(_ & ? & _)|(? & _ & _ & Hc)]]; lia.
Qed.

Lemma pyramid_count_bounded_witness :
  0 ≤ buy_count long_at_100 ≤ 3
  ∧ ∀ b self' orders, next long_at_100 b = Ok (self', orders) →
      (position_size b ≠ 0 → ∀ sz, orders = [Buy sz] ∨ orders = [Sell sz] →
         buy_count long_at_100 < 3
         ∧ buy_count self' = buy_count long_at_100 + 1)
      ∧ (orders = [Close] → buy_count self' = 0)
      ∧ (order long_at_100 = None →
         (0 < position_size b ∧ long_pyramid_cond long_at_100 b = false
            ∧ (long_stop_cond long_at_100 b || long_take_cond long_at_100 b)
              = true)
         ∨ (position_size b < 0 ∧ short_pyramid_cond long_at_100 b = false
            ∧ (short_stop_cond long_at_100 b || short_exit_cond b) = true) →
         orders = [Close] ∧ buy_count self' = 0)
      ∧ 0 ≤ buy_count self' ≤ 3.
Proof.
  apply (pyramid_count_bounded long_at_100).
  apply (reach_step {| order := Some (Buy 83); buy_count := 1;
                       last_buy_price := Fin 100 |}).
  - apply (reach_step init); [apply reach_init|].
    apply (step_next init cross_bar _ [Buy 83]). vm_compute. reflexivity.
  - apply (step_settle {| order := Some (Buy 83); buy_count := 1;
                          last_buy_price := Fin 100 |}).
Defined.

(** C10. With no pending order, [next] makes at most one broker call and
    picks it by a fixed priority.  Long position: the pyramiding test comes
    first, then the stop-loss, then the take-profit.  Short position: the
    pyramiding test, then the stop-loss, then the signal exit.  In
    particular, on a bar with a long position where the pyramiding condition
    (close > last entry + 0.4 ATR, count < 3, volume > its 20-bar average)
    and the take-profit condition (close > last entry + 2 ATR) both hold,
    the only order [next] can make is the add: once the size evaluates to
    [sz], the result is the order [Buy sz] with the count incremented, and
    no successful result holds a [Close]. *)
Theorem branch_priority self b :
  order self = None →
  (∀ self' orders, next self b = Ok (self', orders) → (length orders ≤ 1)%nat)
  ∧ (0 < position_size b →
       next self b =
         if long_pyramid_cond self b then _buy_more self b
         else if long_stop_cond self b then _exit_all self b
         else if long_take_cond self b then _exit_all self b
         else Ok (self, []))
  ∧ (position_size b < 0 →
       next self b =
         if short_pyramid_cond self b then _sell_more self b
         else if short_stop_cond self b then _exit_all self b
         else if short_exit_cond b then _exit_all self b
         else Ok (self, []))
  ∧ (0 < position_size b →
     Flt (fadd (last_buy_price self) (fmul (Fin 0.4) (ATR b))) (close b) →
     buy_count self < 3 →
     Flt (sma_volume b) (volume b) →
     Flt (fadd (last_buy_price self) (fmul (Fin 2) (ATR b))) (close b) →
     (∀ sz, order_size (value b) (ATR b) = Ok sz →
        next self b =
          Ok ({| order := Some (Buy sz); last_buy_price := close b;
                 buy_count := buy_count self + 1 |}, [Buy sz]))
     ∧ (∀ self' orders, next self b = Ok (self', orders) →
          (Close ∉ orders) ∧ ∃ sz, orders = [Buy sz])).
Proof.
  intros Hnone. split; [|split; [|split]].
  - intros self' orders Hn.
    destruct (next_orders _ _ _ _ Hn) as [->|[->|(sz & _ & [->| ->])]];
      simpl; lia.
  - intros Hp. unfold next. rewrite Hnone.
    by apply Z.ltb_lt in Hp as ->.
  - intros Hp. unfold next. rewrite Hnone.
    assert ((0 <? position_size b) = false) as -> by (apply Z.ltb_ge; lia).
    by apply Z.ltb_lt in Hp as ->.
  - intros Hp H1 H2 H3 _.
    assert (next self b = _buy_more self b) as ->.
    { unfold next. rewrite Hnone. apply Z.ltb_lt in Hp as ->.
      unfold long_pyramid_cond. unfold Flt in H1, H3. rewrite H1, H3.
      by apply Z.ltb_lt in H2 as ->. }
    unfold _buy_more. split.
    + by intros sz ->.
    + intros self' orders.
      destruct (order_size (value b) (ATR b)) as [sz|]; [|discriminate].
      simpl. intros [= <- <-]. split; [|by exists sz].
      intros Hin. apply list_elem_of_singleton in Hin. discriminate.
Qed.

Lemma branch_priority_witness :
  next long_at_100 rally_bar =
    Ok ({| order := Some (Buy 83); last_buy_price := Fin 110;
           buy_count := 2 |}, [Buy 83])
  ∧ long_take_cond long_at_100 rally_bar = true.
Proof.
  split; [|vm_compute; reflexivity].
  refine (proj1 (proj2 (proj2 (proj2
    (branch_priority long_at_100 rally_bar _))) _ _ _ _ _) 83 _);
    vm_compute; reflexivity.
Defined.




End MacdKdjFacts.

(** * The selection strategy and its indicators *)

Module GrowthTrendFacts.
Import FloatFacts GrowthTrend.

(** ** Gated momentum *)

Lemma deque_append_lastn (n : nat) (l : list float) (x : float) :
  deque_append n (lastn n l) x = lastn n (l ++ [x]).
Proof.
  unfold deque_append, lastn. cbv zeta. rewrite !length_app, length_drop.
  simpl.
  destruct (decide (length l ≤ n)%nat) as [Hle|Hgt].
  - replace (length l - n)%nat with 0%nat by lia. simpl.
    f_equal. lia.
  - replace (length l - (length l - n) + 1 - n)%nat with 1%nat by lia.
    replace (length l + 1 - n)%nat with (S (length l - n)) by lia.
    rewrite !drop_app, drop_drop, length_drop.
    replace (length l - n + 1)%nat with (S (length l - n)) by lia.
    do 2 f_equal. lia.
Qed.

Lemma fdiv_quotient (x y : float) :
  feqb y (Fin 0) = false → fdiv x y = Ok (quotient x y).
Proof.
  unfold quotient, fdiv. destruct y as [|b]; [done|]. simpl. intros ->.
  by destruct x.
Qed.

(** One call of [next] on a bar whose divisors are not zero appends the
    masked return and writes the sum of the deque. *)
Lemma ImprovedMTM_next_ok p history b :
  bar_ok b →
  ImprovedMTM_next p history b =
    Ok (deque_append (period p) history (masked_return p b),
        py_sum (deque_append (period p) history (masked_return p b))).
Proof.
  intros [Hl Hc]. unfold ImprovedMTM_next, masked_return, ratio, raw_return.
  rewrite (fdiv_quotient _ _ Hl), (fdiv_quotient _ _ Hc). simpl.
  by destruct (flt _ _).
Qed.

Lemma ImprovedMTM_run_from p pre bars :
  Forall bar_ok bars →
  ∃ outs,
    ImprovedMTM_run p (lastn (period p) (masked_return p <$> pre)) bars =
      Ok (lastn (period p) (masked_return p <$> (pre ++ bars)), outs)
    ∧ length outs = length bars
    ∧ ∀ i, (i < length bars)%nat →
        outs !! i =
          Some (py_sum (lastn (period p)
                  (masked_return p <$> (pre ++ take (S i) bars)))).
Proof.
  intros Hok. revert pre.
  induction Hok as [|b bars Hb _ IH]; intros pre.
  - exists []. rewrite app_nil_r. repeat split. simpl. lia.
  - destruct (IH (pre ++ [b])) as (outs & Hrun & Hlen & Hout).
    simpl. rewrite (ImprovedMTM_next_ok _ _ _ Hb). simpl.
    rewrite deque_append_lastn.
    change [masked_return p b] with (masked_return p <$> [b]).
    rewrite <- fmap_app.
    rewrite Hrun. simpl. rewrite <- app_assoc in *. simpl in *.
    eexists. split; [done|]. split; [simpl; lia|].
    intros [|i] Hi; simpl.
    + by rewrite take_0.
    + rewrite Hout by lia. do 4 f_equal. by rewrite <- app_assoc.
Qed.





(** ** Sorting *)

Lemma insert_desc_perm x l : insert_desc x l ≡ₚ x :: l.
Proof.
  induction l as [|y l IH]; simpl; [done|].
  destruct (flt x.2 y.2); [|done]. rewrite IH. apply Permutation_swap.
Qed.

Lemma sorted_desc_perm l : sorted_desc l ≡ₚ l.
Proof.
  induction l as [|x l IH]; simpl; [done|].
  unfold sorted_desc in *. simpl. by rewrite insert_desc_perm, IH.
Qed.

Lemma insert_by_perm f x l : insert_by f x l ≡ₚ x :: l.
Proof.
  induction l as [|y l IH]; simpl; [done|].
  destruct (flt (f x) (f y)); [|done]. rewrite IH. apply Permutation_swap.
Qed.

Lemma rank_by_perm f l : rank_by f l ≡ₚ l.
Proof.
  induction l as [|x l IH]; simpl; [done|].
  unfold rank_by in *. simpl. by rewrite insert_by_perm, IH.
Qed.

(** Sorting the pairs (name, value) is sorting the feeds. *)

Lemma insert_desc_insert_by f x k :
  insert_desc (pair_of f x) (pair_of f <$> k) = pair_of f <$> insert_by f x k.
Proof.
  induction k as [|y k IHk]; [done|].
  rewrite fmap_cons. simpl. destruct (flt (f x) (f y)); [|done].
  by rewrite fmap_cons, <- IHk.
Qed.

Lemma sorted_desc_rank_by f l :
  sorted_desc (pair_of f <$> l) = pair_of f <$> rank_by f l.
Proof.
  induction l as [|x l IH]; [done|].
  rewrite fmap_cons. unfold sorted_desc, rank_by in *.
  rewrite !foldr_cons, IH. apply insert_desc_insert_by.
Qed.


Lemma insert_desc_sorted x l :
  isnan x.2 = false → Forall (λ y, isnan y.2 = false) l →
  descending l → descending (insert_desc x l).
Proof.
  intros Hx Hl Hs. induction Hs as [|y l Hs IH Hy]; simpl.
  - repeat constructor.
  - apply Forall_cons in Hl as [Hy' Hl].
    destruct (flt x.2 y.2) eqn:E.
    + constructor; [by apply IH|].
      rewrite insert_desc_perm. constructor; [|done].
      destruct x.2 as [|a], y.2 as [|b]; try done.
      apply flt_Fin in E. apply fle_Fin. lra.
    + constructor; [by constructor|].
      assert (Fle y.2 x.2) as Hyx.
      { destruct x.2 as [|a], y.2 as [|b]; try done.
        apply flt_false_Fin in E. by apply fle_Fin. }
      constructor; [done|].
      eapply Forall_impl; [exact Hy|]. simpl. intros z Hz.
      destruct x.2 as [|a], y.2 as [|b], z.2 as [|c]; try done.
      unfold Fle in *. rewrite fle_Fin in *. lra.
Qed.

Lemma sorted_desc_sorted l :
  Forall (λ y, isnan y.2 = false) l → descending (sorted_desc l).
Proof.
  induction 1 as [|x l Hx Hl IH]; [constructor|].
  unfold sorted_desc in *. simpl. apply insert_desc_sorted; [done| |done].
  by rewrite sorted_desc_perm.
Qed.


(** ** The dictionaries of lines *)

Lemma line_dict_snoc f l d :
  line_dict f (l ++ [d]) = <[_name d := f d]> (line_dict f l).
Proof. unfold line_dict. by rewrite foldl_snoc. Qed.

(** With distinct names, the dictionary gives each feed its own line. *)
Lemma line_dict_lookup f datas d :
  NoDup (_name <$> datas) → d ∈ datas →
  line_dict f datas !! _name d = Some (f d).
Proof.
  induction datas as [|x l IH] using rev_ind; intros Hnd Hin.
  - inversion Hin.
  - rewrite line_dict_snoc. rewrite fmap_app in Hnd.
    apply NoDup_app in Hnd as (Hl & Hx & _).
    apply elem_of_app in Hin as [Hin|Hin].
    + rewrite lookup_insert_ne; [by apply IH|].
      intros E. apply (Hx (_name d)); [|simpl; rewrite <- E; left].
      by apply list_elem_of_fmap_2.
    + apply list_elem_of_singleton in Hin as ->. apply lookup_insert_eq.
Qed.

Lemma next_data_lookup datas d :
  NoDup (_name <$> datas) → d ∈ datas → next_data datas (_name d) = Ok d.
Proof.
  unfold next_data. induction datas as [|x l IH]; intros Hnd Hin.
  - inversion Hin.
  - rewrite fmap_cons in Hnd. apply NoDup_cons in Hnd as [Hx Hl]. simpl.
    destruct (String.eqb_spec (_name x) (_name d)) as [E|E].
    + apply elem_of_cons in Hin as [->|Hin]; [done|].
      exfalso. apply Hx. rewrite E. by apply list_elem_of_fmap_2.
    + apply elem_of_cons in Hin as [->|Hin]; [done|]. by apply IH.
Qed.

Lemma getitem_line f datas d :
  NoDup (_name <$> datas) → d ∈ datas →
  getitem (line_dict f datas) (_name d) = Ok (f d).
Proof. intros Hnd Hin. unfold getitem. by rewrite line_dict_lookup. Qed.

Lemma keyed_names f datas l :
  NoDup (_name <$> datas) → (∀ d, d ∈ l → d ∈ datas) →
  keyed (line_dict f datas) (_name <$> l) = Ok (pair_of f <$> l).
Proof.
  intros Hnd. unfold keyed. induction l as [|d l IH]; intros Hl; [done|].
  rewrite !fmap_cons. simpl.
  rewrite (getitem_line f datas d Hnd) by (apply Hl; left). simpl.
  rewrite IH; [done|]. intros d' Hd'. apply Hl. by right.
Qed.

Lemma column_names f datas l :
  NoDup (_name <$> datas) → (∀ d, d ∈ l → d ∈ datas) →
  column (line_dict f datas) (_name <$> l) = Ok (f <$> l).
Proof.
  intros Hnd. unfold column. induction l as [|d l IH]; intros Hl; [done|].
  rewrite !fmap_cons. simpl.
  rewrite (getitem_line f datas d Hnd) by (apply Hl; left). simpl.
  rewrite IH; [done|]. intros d' Hd'. apply Hl. by right.
Qed.

Lemma filter_pair_of f (l : list feed) :
  filter (λ nx : string * float, flt (Fin 0) nx.2 = true) (pair_of f <$> l)
  = pair_of f <$> filter (λ d, flt (Fin 0) (f d) = true) l.
Proof.
  induction l as [|d l IH]; [done|].
  rewrite fmap_cons, !filter_cons, IH.
  change (pair_of f d).2 with (f d). by case_decide.
Qed.

Lemma fst_pair_of f (l : list feed) : (pair_of f <$> l).*1 = _name <$> l.
Proof. by rewrite <- list_fmap_compose. Qed.

(** ** The base pool *)

Lemma third_submseteq datas : third datas ⊆+ datas.
Proof.
  unfold third. etrans; [apply submseteq_take|]. by rewrite rank_by_perm.
Qed.

Lemma pool_submseteq datas : pool datas ⊆+ third datas.
Proof.
  unfold pool. etrans; [apply submseteq_take|]. rewrite rank_by_perm.
  apply sublist_submseteq, sublist_filter.
Qed.

Lemma third_in datas d : d ∈ third datas → d ∈ datas.
Proof. intros H. apply (elem_of_submseteq _ _ _ H), third_submseteq. Qed.

Lemma pool_in datas d : d ∈ pool datas → d ∈ datas.
Proof.
  intros H. apply third_in, (elem_of_submseteq _ _ _ H), pool_submseteq.
Qed.

Lemma pool_positive datas d : d ∈ pool datas → Flt (Fin 0) (acc d).
Proof.
  unfold pool. intros H.
  pose proof (elem_of_submseteq _ _ _ H (submseteq_take _ _)) as H'.
  rewrite rank_by_perm in H'. by apply list_elem_of_filter in H' as [? ?].
Qed.

Lemma top_third_closed datas :
  NoDup (_name <$> datas) → top_third datas = Ok (_name <$> third datas).
Proof.
  intros Hnd. unfold top_third, third.
  rewrite (keyed_names ttm datas datas Hnd) by done. simpl.
  by rewrite sorted_desc_rank_by, <- fmap_take, fst_pair_of, length_fmap.
Qed.

Lemma base_pool_closed datas :
  NoDup (_name <$> datas) → base_pool datas = Ok (_name <$> pool datas).
Proof.
  intros Hnd. unfold base_pool, pool.
  rewrite (top_third_closed datas Hnd). simpl.
  rewrite (keyed_names acc datas (third datas) Hnd) by apply third_in. simpl.
  rewrite filter_pair_of, sorted_desc_rank_by, <- fmap_take, fst_pair_of.
  rewrite length_fmap. do 3 f_equal.
  by rewrite rank_by_perm.
Qed.



Lemma pool_small datas : (length datas < 6)%nat → pool datas = [].
Proof.
  intros Hlen. unfold pool.
  set (rem := filter _ (third datas)).
  assert (length rem ≤ 1)%nat as Hrem.
  { subst rem. etrans; [apply length_filter|]. unfold third.
    rewrite length_take.
    assert (length datas / 3 < 2)%nat
      by (apply Nat.Div0.div_lt_upper_bound; lia).
    lia. }
  by rewrite Nat.div_small by lia.
Qed.





(** ** Normalisation *)

Lemma foldl_min_spec (v : list float) (a : Q) :
  Forall (λ y, isnan y = false) v →
  ∃ m, foldl (λ m y, if flt y m then y else m) (Fin a) v = Fin m
       ∧ Fin m ∈ Fin a :: v
       ∧ ∀ y, Fin y ∈ Fin a :: v → (m <= y)%Q.
Proof.
  intros Hv. revert a. induction Hv as [|y v Hy _ IH]; intros a.
  - exists a. split; [done|]. split; [left|].
    intros y [= ->]%list_elem_of_singleton. lra.
  - destruct y as [|b]; [done|]. cbn [foldl].
    destruct (flt (Fin b) (Fin a)) eqn:E.
    + apply flt_Fin in E. destruct (IH b) as (m & -> & Hin & Hle).
      exists m. split; [done|]. split; [by right|].
      intros z Hz. apply elem_of_cons in Hz as [[= ->]|Hz].
      * specialize (Hle b (list_elem_of_here _ _)). lra.
      * by apply Hle.
    + apply flt_false_Fin in E. destruct (IH a) as (m & -> & Hin & Hle).
      exists m. split; [done|]. split.
      * apply elem_of_cons in Hin as [->|Hin]; [left|by do 2 right].
      * intros z Hz. apply elem_of_cons in Hz as [[= ->]|Hz];
          [apply Hle; left|].
        apply elem_of_cons in Hz as [[= ->]|Hz]; [|apply Hle; by right].
        specialize (Hle a (list_elem_of_here _ _)). lra.
Qed.

Lemma foldl_max_spec (v : list float) (a : Q) :
  Forall (λ y, isnan y = false) v →
  ∃ m, foldl (λ m y, if flt m y then y else m) (Fin a) v = Fin m
       ∧ Fin m ∈ Fin a :: v
       ∧ ∀ y, Fin y ∈ Fin a :: v → (y <= m)%Q.
Proof.
  intros Hv. revert a. induction Hv as [|y v Hy _ IH]; intros a.
  - exists a. split; [done|]. split; [left|].
    intros y [= ->]%list_elem_of_singleton. lra.
  - destruct y as [|b]; [done|]. cbn [foldl].
    destruct (flt (Fin a) (Fin b)) eqn:E.
    + apply flt_Fin in E. destruct (IH b) as (m & -> & Hin & Hle).
      exists m. split; [done|]. split; [by right|].
      intros z Hz. apply elem_of_cons in Hz as [[= ->]|Hz].
      * specialize (Hle b (list_elem_of_here _ _)). lra.
      * by apply Hle.
    + apply flt_false_Fin in E. destruct (IH a) as (m & -> & Hin & Hle).
      exists m. split; [done|]. split.
      * apply elem_of_cons in Hin as [->|Hin]; [left|by do 2 right].
      * intros z Hz. apply elem_of_cons in Hz as [[= ->]|Hz];
          [apply Hle; left|].
        apply elem_of_cons in Hz as [[= ->]|Hz]; [|apply Hle; by right].
        specialize (Hle a (list_elem_of_here _ _)). lra.
Qed.

Lemma defined_elem (arr : list float) (a : Q) :
  Fin a ∈ filter (λ x, isnan x = false) arr ↔ Fin a ∈ arr.
Proof. rewrite list_elem_of_filter. split; [by intros [_ ?]|by split]. Qed.

(** The minimum and maximum that [norm] scales by: those of the entries
    that are not NaN. *)
Lemma min_max_defined (arr : list float) :
  (∃ a, Fin a ∈ arr) →
  ∃ mn mx,
    py_min (filter (λ x, isnan x = false) arr) = Ok (Fin mn)
    ∧ py_max (filter (λ x, isnan x = false) arr) = Ok (Fin mx)
    ∧ Fin mn ∈ arr ∧ Fin mx ∈ arr
    ∧ ∀ a, Fin a ∈ arr → (mn <= a <= mx)%Q.
Proof.
  intros [a Ha]. apply defined_elem in Ha.
  assert (Forall (λ y, isnan y = false) (filter (λ x, isnan x = false) arr))
    as Hall.
  { apply Forall_forall. by intros x [? _]%list_elem_of_filter. }
  setoid_rewrite <- defined_elem.
  destruct (filter (λ x, isnan x = false) arr) as [|x v]; [inversion Ha|].
  apply Forall_cons in Hall as [Hx Hv]. destruct x as [|x0]; [done|].
  destruct (foldl_min_spec v x0 Hv) as (mn & Emn & Hmn & Lmn).
  destruct (foldl_max_spec v x0 Hv) as (mx & Emx & Hmx & Lmx).
  exists mn, mx. simpl. rewrite Emn, Emx. naive_solver.
Qed.

Lemma min_max_undefined (arr : list float) :
  (∀ a, Fin a ∉ arr) → py_min (filter (λ x, isnan x = false) arr)
                        = Raise ValueError.
Proof.
  intros Hno. destruct (filter _ arr) as [|x v] eqn:E; [done|].
  exfalso. assert (x ∈ filter (λ x, isnan x = false) arr) as Hx
    by (rewrite E; left).
  apply list_elem_of_filter in Hx as [Hx Hin].
  destruct x as [|a]; [done|]. by apply (Hno a).
Qed.

Lemma norm_closed (arr : list float) (mn mx : Q) :
  py_min (filter (λ x, isnan x = false) arr) = Ok (Fin mn) →
  py_max (filter (λ x, isnan x = false) arr) = Ok (Fin mx) →
  norm arr = Ok (scale mn mx <$> arr).
Proof.
  intros Hmn Hmx. unfold norm. rewrite Hmn, Hmx. simpl.
  generalize arr. clear. intros arr.
  induction arr as [|x arr IH]; [done|].
  rewrite fmap_cons. simpl. rewrite IH. unfold scale.
  destruct (Qeq_bool mn mx) eqn:E; [done|].
  assert (Qeq_bool (mx - mn) 0 = false) as E'.
  { apply not_true_iff_false. rewrite Qeq_bool_iff. intros H.
    apply Qeq_bool_neq in E. apply E. lra. }
  destruct x as [|a]; simpl; by rewrite E'.
Qed.

Lemma scale_range (mn mx a : Q) :
  (mn <= a <= mx)%Q → ¬ (mn == mx)%Q →
  (0 <= (a - mn) / (mx - mn) * 100 <= 100)%Q.
Proof.
  intros [H1 H2] Hne. assert (0 < mx - mn)%Q as Hpos by lra.
  assert (0 <= (a - mn) / (mx - mn))%Q as L
    by (apply Qle_shift_div_l; lra).
  assert ((a - mn) / (mx - mn) <= 1)%Q as U
    by (apply Qle_shift_div_r; lra).
  lra.
Qed.

(** C4. On a list with at least one defined value, [norm] does not raise
    and returns one value per member of the eligible set.  With mn and mx
    the minimum and maximum of the defined values: when mn differs from mx
    a defined value a becomes (a - mn) / (mx - mn) * 100, which lies in
    [0, 100]; when mn equals mx, in particular when all defined values are
    identical, every member receives exactly 50. *)
Theorem norm_min_max (arr : list float) :
  (∃ a, Fin a ∈ arr) →
  ∃ mn mx out,
    norm arr = Ok out
    ∧ length out = length arr
    ∧ Fin mn ∈ arr ∧ Fin mx ∈ arr
    ∧ (∀ a, Fin a ∈ arr → (mn <= a <= mx)%Q)
    ∧ (∀ i a, arr !! i = Some (Fin a) →
         ∃ y, out !! i = Some (Fin y) ∧ (0 <= y <= 100)%Q
              ∧ (¬ (mn == mx)%Q → y = ((a - mn) / (mx - mn) * 100)%Q))
    ∧ ((mn == mx)%Q → out = replicate (length arr) (Fin 50))
    ∧ ((∀ a b, Fin a ∈ arr → Fin b ∈ arr → (a == b)%Q) →
       out = replicate (length arr) (Fin 50)).
Proof.
  intros Hex.
  destruct (min_max_defined arr Hex) as (mn & mx & Hmn & Hmx & Imn & Imx & Hb).
  exists mn, mx, (scale mn mx <$> arr).
  split; [by apply norm_closed|]. split; [by rewrite length_fmap|].
  do 3 (split; [done|]).
  assert ((mn == mx)%Q → scale mn mx <$> arr = replicate (length arr) (Fin 50))
    as Hdeg.
  { intros E. apply const_fmap. intros i x _. unfold scale.
    by rewrite (Qeq_eq_bool _ _ E). }
  split; [|split; [done|]].
  - intros i a Hi. rewrite list_lookup_fmap, Hi. simpl. unfold scale.
    destruct (Qeq_bool mn mx) eqn:E.
    + exists 50%Q. split; [done|]. split; [lra|].
      intros Hne. by apply Qeq_bool_eq in E.
    + eexists. split; [done|]. split; [|done].
      apply scale_range; [|by apply Qeq_bool_neq].
      apply Hb. apply list_elem_of_lookup. eauto.
  - intros Hsame. apply Hdeg. by apply Hsame.
Qed.

Lemma norm_min_max_witness :
  ∃ mn mx out,
    norm [Fin 3; NaN; Fin 1; Fin 2] = Ok out
    ∧ length out = length [Fin 3; NaN; Fin 1; Fin 2]
    ∧ Fin mn ∈ [Fin 3; NaN; Fin 1; Fin 2]
    ∧ Fin mx ∈ [Fin 3; NaN; Fin 1; Fin 2]
    ∧ (∀ a, Fin a ∈ [Fin 3; NaN; Fin 1; Fin 2] → (mn <= a <= mx)%Q)
    ∧ (∀ i a, [Fin 3; NaN; Fin 1; Fin 2] !! i = Some (Fin a) →
         ∃ y, out !! i = Some (Fin y) ∧ (0 <= y <= 100)%Q
              ∧ (¬ (mn == mx)%Q → y = ((a - mn) / (mx - mn) * 100)%Q))
    ∧ ((mn == mx)%Q →
       out = replicate (length [Fin 3; NaN; Fin 1; Fin 2]) (Fin 50))
    ∧ ((∀ a b, Fin a ∈ [Fin 3; NaN; Fin 1; Fin 2] →
               Fin b ∈ [Fin 3; NaN; Fin 1; Fin 2] → (a == b)%Q) →
       out = replicate (length [Fin 3; NaN; Fin 1; Fin 2]) (Fin 50)).
Proof.
  apply (norm_min_max [Fin 3; NaN; Fin 1; Fin 2]).
  exists 3%Q. left.
Defined.


Lemma defined_or_not (arr : list float) :
  (∃ a, Fin a ∈ arr) ∨ (∀ a, Fin a ∉ arr).
Proof.
  induction arr as [|x arr [[a Ha]|Hno]].
  - right. intros a Ha. inversion Ha.
  - left. exists a. by right.
  - destruct x as [|a]; [|left; exists a; left].
    right. intros a [?|?]%elem_of_cons; [done|]. by apply (Hno a).
Qed.

Lemma filter_defined_nan (l1 l2 : list float) :
  filter (λ x, isnan x = false) (l1 ++ NaN :: l2)
  = filter (λ x, isnan x = false) (l1 ++ l2).
Proof. by rewrite !filter_app, filter_cons. Qed.

Lemma feed_of_name datas d d' :
  NoDup (_name <$> datas) → d ∈ datas → d' ∈ datas → _name d = _name d' →
  d = d'.
Proof.
  intros Hnd Hd Hd' E.
  pose proof (next_data_lookup datas d Hnd Hd) as H1.
  pose proof (next_data_lookup datas d' Hnd Hd') as H2.
  rewrite E in H1. congruence.
Qed.

(** C3 (as the code has it). [norm] takes its minimum and maximum over the
    values that are not NaN: a NaN entry changes nothing in the normalised
    values of the other entries, it keeps its place in the result, it is
    not turned into zero, and it stays NaN whenever two defined values
    differ.  An instrument whose acceleration is NaN is never in the base
    pool. *)
Theorem norm_excludes_nan :
  (∀ l1 l2 out, norm (l1 ++ NaN :: l2) = Ok out →
     ∃ o1 y o2, out = o1 ++ y :: o2 ∧ length o1 = length l1
       ∧ norm (l1 ++ l2) = Ok (o1 ++ o2)
       ∧ feqb y (Fin 0) = false
       ∧ ((∃ a b, Fin a ∈ l1 ++ l2 ∧ Fin b ∈ l1 ++ l2 ∧ ¬ (a == b)%Q) →
          y = NaN))
  ∧ (∀ datas base d, NoDup (_name <$> datas) → base_pool datas = Ok base →
       d ∈ datas → isnan (acc d) = true → _name d ∉ base).
Proof.
  split.
  - intros l1 l2 out Hn.
    destruct (defined_or_not (l1 ++ l2)) as [Hex|Hno].
    + destruct (min_max_defined (l1 ++ l2) Hex)
        as (mn & mx & Hmn & Hmx & _ & _ & Hb).
      rewrite (norm_closed (l1 ++ NaN :: l2) mn mx) in Hn
        by (by rewrite filter_defined_nan).
      injection Hn as <-. rewrite fmap_app, fmap_cons.
      exists (scale mn mx <$> l1), (scale mn mx NaN), (scale mn mx <$> l2).
      split; [done|]. split; [by rewrite length_fmap|].
      split; [by rewrite (norm_closed _ mn mx), fmap_app|].
      unfold scale. split; [by destruct (Qeq_bool mn mx)|].
      intros (a & b & Ha & Hb' & Hne).
      destruct (Qeq_bool mn mx) eqn:E; [|done].
      apply Qeq_bool_eq in E. exfalso. apply Hne.
      pose proof (Hb a Ha). pose proof (Hb b Hb'). lra.
    + exfalso. unfold norm in Hn. rewrite filter_defined_nan in Hn.
      by rewrite min_max_undefined in Hn.
  - intros datas base d Hnd Hbase Hd Hnan Hin.
    rewrite (base_pool_closed datas Hnd) in Hbase. injection Hbase as <-.
    apply list_elem_of_fmap in Hin as (d' & E & Hd').
    assert (d = d') as <-
      by (apply (feed_of_name datas); [done..|by apply pool_in|done]).
    apply pool_positive in Hd'. unfold Flt in Hd'.
    by destruct (acc d).
Qed.

Lemma norm_excludes_nan_witness :
  (∃ o1 y o2, [Fin 100; NaN; Fin 0] = o1 ++ y :: o2
     ∧ length o1 = length [Fin 2]
     ∧ norm ([Fin 2] ++ [Fin 1]) = Ok (o1 ++ o2)
     ∧ feqb y (Fin 0) = false
     ∧ ((∃ a b, Fin a ∈ [Fin 2] ++ [Fin 1] ∧ Fin b ∈ [Fin 2] ++ [Fin 1]
                ∧ ¬ (a == b)%Q) → y = NaN))
  ∧ "A" ∉ ["X"].
Proof.
  split.
  - apply (proj1 norm_excludes_nan [Fin 2] [Fin 1] [Fin 100; NaN; Fin 0]).
    vm_compute. reflexivity.
  - apply (proj2 norm_excludes_nan
             (Scenario.simple_feed "A" (Fin 1) NaN (Fin 0) :: Scenario.twelve)
             ["X"]
             (Scenario.simple_feed "A" (Fin 1) NaN (Fin 0))).
    + apply (bool_decide_unpack _). vm_compute. exact I.
    + vm_compute. reflexivity.
    + left.
    + reflexivity.
Defined.

(** The claim C3 fails on the twelve instruments: X, whose solvency is NaN
    (its net assets are zero), passes the hard-filter tests, is normalised
    to the number 50 for solvency, is ranked first with the composite score
    320.5 and is selected.  A factor that is NaN for every eligible
    instrument makes [norm] raise. *)
Lemma nan_solvency_is_ranked :
  SolvencyAbility_next Scenario.no_net_assets = Ok NaN
  ∧ column (line_dict solv Scenario.twelve) ["X"; "Y"] = Ok [NaN; Fin 0.5]
  ∧ norm [NaN; Fin 0.5] = Ok [Fin 50; Fin 50]
  ∧ (∃ sx sy,
       ranked Scenario.fresh Scenario.twelve ["X"; "Y"]
         = Ok [("X", Fin sx); ("Y", Fin sy)]
       ∧ (sx == 320.5)%Q)
  ∧ select_final np_percentile Scenario.fresh Scenario.twelve
      = Ok ["X"; "Y"]
  ∧ norm [NaN] = Raise ValueError.
Proof.
  repeat split; try (vm_compute; reflexivity).
  eexists _, _. split; vm_compute; reflexivity.
Qed.

(** ** The rebalance scheduler *)

(** C8. Once a call of [next] on date [dt] has returned, with the rebalance
    executed or not, every further call on the same date, whatever the data,
    returns the same strategy object and places no order: after a rebalance
    executed on [dt], the calls on [dt] are no-ops. *)
Theorem rebalance_once_per_date percentile self dt datas self' orders :
  next percentile self dt datas = Ok (self', orders) →
  (∀ datas', next percentile self' dt datas' = Ok (self', []))
  ∧ (last_rebalance self' = Some dt ∨ (self' = self ∧ orders = [])).
Proof.
  unfold next. destruct (decide (last_rebalance self = Some dt)) as [E|E].
  - intros [= -> <-]. split; [|by left]. intros datas'.
    by rewrite decide_True by done.
  - destruct (prev_day dt) as [y|] eqn:Ey; [|done]. simpl.
    destruct (decide ((month y, day y) ∈ target)) as [Ht|Ht].
    + destruct (rebalance percentile self datas) as [os|]; [|done]. simpl.
      intros [= <- <-]. split; [|by left]. intros datas'.
      by rewrite decide_True by done.
    + intros [= -> <-]. split; [|by right]. intros datas'.
      by rewrite decide_False by done.
Qed.

Lemma rebalance_once_per_date_witness :
  (∀ datas', next np_percentile Scenario.rebalanced Scenario.feb_1 datas'
             = Ok (Scenario.rebalanced, []))
  ∧ (last_rebalance Scenario.rebalanced = Some Scenario.feb_1
     ∨ (Scenario.rebalanced = Scenario.fresh
        ∧ Scenario.feb_orders = [])).
Proof.
  apply (rebalance_once_per_date np_percentile Scenario.fresh Scenario.feb_1
           Scenario.twelve Scenario.rebalanced Scenario.feb_orders).
  vm_compute. reflexivity.
Defined.


(** ** The final selection *)

Lemma submseteq_NoDup_l {A} (l k : list A) : l ⊆+ k → NoDup k → NoDup l.
Proof.
  intros (l' & Hsub & Hperm)%submseteq_sublist_l Hk.
  apply (sublist_NoDup _ l'); [|done]. by rewrite Hperm.
Qed.

Lemma hard_filter_sublist datas vol_thresh base eligible :
  hard_filter datas vol_thresh base = Ok eligible →
  eligible `sublist_of` base.
Proof.
  revert eligible. induction base as [|n base IH]; intros eligible; simpl.
  - intros [= <-]. constructor.
  - destruct (passes datas vol_thresh n) as [b|]; [|done]. simpl.
    destruct (hard_filter datas vol_thresh base) as [rest|]; [|done]. simpl.
    intros [= <-]. destruct b; [apply sublist_skip|apply sublist_cons];
      by apply IH.
Qed.

Lemma eligible_set_sublist percentile self datas base eligible :
  eligible_set percentile self datas base = Ok eligible →
  eligible `sublist_of` base.
Proof.
  unfold eligible_set.
  destruct (column _ base) as [raw_vols|]; [|done]. simpl.
  destruct (percentile raw_vols 90%Q) as [vol_thresh|]; [|done]. simpl.
  destruct (hard_filter datas vol_thresh base) as [l|] eqn:E; [|done]. simpl.
  intros [= <-]. destruct (_ <? _); [done|].
  by apply (hard_filter_sublist datas vol_thresh).
Qed.

Lemma mapR_fst {A} (f : A → result (string * float)) (g : A → string)
    (l : list A) (l' : list (string * float)) :
  (∀ x y, f x = Ok y → y.1 = g x) → mapR f l = Ok l' → l'.*1 = g <$> l.
Proof.
  intros Hf. revert l'. induction l as [|x l IH]; intros l'; simpl.
  - by intros [= <-].
  - destruct (f x) as [y|] eqn:E; [|done]. simpl.
    destruct (mapR f l) as [ys|]; [|done]. simpl. intros [= <-].
    rewrite !fmap_cons. f_equal; [by apply Hf|by apply IH].
Qed.

Lemma imap_pair_snd (g : nat → nat) (l : list string) :
  (imap (λ i n, (g i, n)) l).*2 = l.
Proof.
  revert g. induction l as [|n l IH]; intros g; [done|].
  simpl. f_equal. apply (IH (g ∘ S)).
Qed.

Lemma ranked_names self datas eligible comp :
  ranked self datas eligible = Ok comp →
  ∃ comp0, comp = sorted_desc comp0 ∧ comp0.*1 = eligible.
Proof.
  unfold ranked. intros H.
  repeat match type of H with
  | (?r ≫= _) = Ok _ =>
      destruct r as [?|] eqn:?; simpl in H; [|discriminate]
  end.
  injection H as <-. eexists. split; [done|].
  match goal with
  | E : mapR ?f _ = Ok _ |- _ => rewrite (mapR_fst f snd _ _ ltac:(
      intros [i n] y Hy; simpl in Hy;
      repeat match type of Hy with
      | (?r ≫= _) = Ok _ => destruct r as [?|]; simpl in Hy; [|discriminate]
      end; by injection Hy as <-) E)
  end.
  by rewrite (imap_pair_snd id).
Qed.

(** The [while] loop in closed form: the first [N] tradable names of the
    ranked list, in its order. *)
Lemma walk_closed N datas comp final :
  (∀ n, n ∈ comp.*1 → ∃ d, next_data datas n = Ok d) →
  walk N datas comp final =
    Ok (final ++ take (Z.to_nat (N - Z.of_nat (length final)))
                   (filter (λ n, tradable datas n = true) comp.*1)).
Proof.
  revert final. induction comp as [|[n s] comp IH]; intros final Hfound.
  - simpl. by rewrite filter_nil, take_nil, app_nil_r.
  - rewrite fmap_cons, filter_cons. simpl.
    destruct (Z.ltb_spec (Z.of_nat (length final)) N) as [Hlt|Hge].
    + destruct (Hfound n) as [d Hd]; [left|].
      assert (tradable datas n
              = negb (feqb (high d) (low d) || feqb (volume d) (Fin 0)))
        as Ht by (unfold tradable; by rewrite Hd).
      rewrite Hd. simpl.
      assert (∀ n', n' ∈ comp.*1 → ∃ d', next_data datas n' = Ok d') as Hrest
        by (intros n' Hn'; apply Hfound; by right).
      destruct (negb _) eqn:E.
      * rewrite decide_True by done. rewrite (IH _ Hrest).
        replace (Z.to_nat (N - Z.of_nat (length final)))
          with (S (Z.to_nat (N - Z.of_nat (length final) - 1))) by lia.
        rewrite length_app. simpl. rewrite <- app_assoc. simpl.
        do 4 f_equal. lia.
      * rewrite decide_False by (by rewrite Ht). by rewrite (IH _ Hrest).
    + replace (Z.to_nat (N - Z.of_nat (length final))) with 0%nat by lia.
      by rewrite take_0, app_nil_r.
Qed.


(** C5. With distinct instrument names and a non-negative [selnum_final],
    once [rebalance] has ranked the eligible set, its final selection never
    raises: the list [final] is exactly the first [selnum_final] names of
    the composite ranking that are neither halted (high == low) nor without
    traded volume, taken in the order of the ranking (which is by decreasing
    score when no score is NaN), or all of them when the ranking has fewer.
    So [final] has at most [selnum_final] names and no duplicates, and a
    ranking that runs out gives a smaller portfolio. *)
Theorem final_selection_bounded percentile self datas base eligible comp :
  NoDup (_name <$> datas) →
  0 ≤ selnum_final (p self) →
  base_pool datas = Ok base →
  eligible_set percentile self datas base = Ok eligible →
  ranked self datas eligible = Ok comp →
  ∃ final,
    select_final percentile self datas = Ok final
    ∧ final = take (Z.to_nat (selnum_final (p self)))
                (filter (λ n, tradable datas n = true) comp.*1)
    ∧ Z.of_nat (length final) ≤ selnum_final (p self)
    ∧ NoDup final
    ∧ (∀ n, n ∈ final →
         ∃ d, d ∈ datas ∧ _name d = n
              ∧ feqb (high d) (low d) = false
              ∧ feqb (volume d) (Fin 0) = false)
    ∧ comp.*1 ≡ₚ eligible
    ∧ (Forall (λ x, isnan x.2 = false) comp → descending comp).
Proof.
  intros Hnd HN Hbase Eel Ecomp. unfold select_final.
  rewrite Hbase. simpl. rewrite Eel. simpl. rewrite Ecomp. simpl.
  rewrite (base_pool_closed datas Hnd) in Hbase. injection Hbase as <-.
  destruct (ranked_names _ _ _ _ Ecomp) as (comp0 & Hsort & Hnames).
  assert (comp.*1 ≡ₚ eligible) as Hperm
    by (by rewrite Hsort, sorted_desc_perm, Hnames).
  apply eligible_set_sublist in Eel as Hsub.
  assert (∀ n, n ∈ comp.*1 → ∃ d, d ∈ datas ∧ _name d = n) as Hfeed.
  { intros n Hn. rewrite Hperm in Hn.
    pose proof (elem_of_sublist _ _ _ Hn Hsub) as Hb.
    apply list_elem_of_fmap in Hb as (d & -> & Hd).
    exists d. split; [by apply pool_in|done]. }
  rewrite walk_closed; cycle 1.
  { intros n (d & Hd & <-)%Hfeed. exists d. by apply next_data_lookup. }
  simpl. rewrite Z.sub_0_r. eexists. split; [done|]. split; [done|].
  set (N := Z.to_nat (selnum_final (p self))).
  split; [|split; [|split; [|split; [done|]]]].
  - rewrite length_take. lia.
  - apply (sublist_NoDup _ (comp.*1)).
    + rewrite Hperm. apply (sublist_NoDup _ (_name <$> pool datas)); [|done].
      apply (submseteq_NoDup_l _ (_name <$> datas)); [|done].
      apply fmap_submseteq. etrans; [apply pool_submseteq|].
      apply third_submseteq.
    + etrans; [apply sublist_take|apply sublist_filter].
  - intros n Hn.
    pose proof (elem_of_sublist _ _ _ Hn (sublist_take _ _)) as Hn'.
    apply list_elem_of_filter in Hn' as [Ht (d & Hd & <-)%Hfeed].
    exists d. split; [done|]. split; [done|].
    unfold tradable in Ht. rewrite (next_data_lookup _ _ Hnd Hd) in Ht.
    by apply negb_true_iff, orb_false_iff in Ht.
  - intros Hdef. rewrite Hsort. apply sorted_desc_sorted.
    rewrite Hsort in Hdef. by rewrite sorted_desc_perm in Hdef.
Qed.

Lemma final_selection_bounded_witness :
  ∃ final,
    select_final np_percentile Scenario.fresh Scenario.twelve = Ok final
    ∧ final = take (Z.to_nat (selnum_final (p Scenario.fresh)))
                (filter (λ n, tradable Scenario.twelve n = true)
                   Scenario.feb_ranking.*1)
    ∧ Z.of_nat (length final) ≤ selnum_final (p Scenario.fresh)
    ∧ NoDup final
    ∧ (∀ n, n ∈ final →
         ∃ d, d ∈ Scenario.twelve ∧ _name d = n
              ∧ feqb (high d) (low d) = false
              ∧ feqb (volume d) (Fin 0) = false)
    ∧ Scenario.feb_ranking.*1 ≡ₚ ["X"; "Y"]
    ∧ (Forall (λ x, isnan x.2 = false) Scenario.feb_ranking →
       descending Scenario.feb_ranking).
Proof.
  apply (final_selection_bounded np_percentile Scenario.fresh Scenario.twelve
           ["X"; "Y"] ["X"; "Y"] Scenario.feb_ranking).
  - apply (bool_decide_unpack _). vm_compute. exact I.
  - vm_compute. discriminate.
  - vm_compute. reflexivity.
  - vm_compute. reflexivity.
  - vm_compute. reflexivity.
Defined.

(** The strategy object of the scenarios is the one [__init__] builds. *)
Lemma fresh_is_init : init default_params = Ok Scenario.fresh.
Proof. reflexivity. Qed.

End GrowthTrendFacts.

(** * More on the signal automaton *)

Module MacdKdjMore.
Import FloatFacts MacdKdj MacdKdjFacts.

(** ** The sizing expression and the exceptions of [next] *)

Lemma order_size_zero_atr (v : float) (a : Q) :
  (a == 0)%Q → order_size v (Fin a) = Raise ZeroDivisionError.
Proof.
  intros Ha. unfold order_size.
  destruct v; simpl; by rewrite (denominator_zero a Ha).
Qed.


Lemma order_size_nan_value (a : Q) :
  ¬ (a == 0)%Q → order_size NaN (Fin a) = Raise ValueError.
Proof.
  intros Ha. unfold order_size. simpl. by rewrite (denominator_nonzero a Ha).
Qed.


Lemma order_size_zero_iff (v : float) (a : Q) :
  order_size v (Fin a) = Raise ZeroDivisionError ↔ (a == 0)%Q.
Proof.
  split; [|apply order_size_zero_atr]. intros H.
  destruct (Qeq_dec a 0) as [Ha|Ha]; [done|]. destruct v as [|e].
  - by rewrite (order_size_nan_value a Ha) in H.
  - by rewrite (order_size_Fin e a Ha) in H.
Qed.





(** ** True range and ATR *)

Lemma max2_Fin_spec (a b : Q) :
  ∃ m, (if flt (Fin a) (Fin b) then Fin b else Fin a) = Fin m
       ∧ (a <= m)%Q ∧ (b <= m)%Q ∧ ((m == a)%Q ∨ (m == b)%Q).
Proof.
  destruct (flt (Fin a) (Fin b)) eqn:E.
  - apply flt_Fin in E. exists b. repeat split; lra.
  - apply flt_false_Fin in E. exists a. repeat split; lra.
Qed.

Lemma TR_max (r : Range) (h l c : Q) :
  r_high r = Fin h → r_low r = Fin l → r_close_prev r = Fin c →
  ∃ t, TR r = Ok (Fin t)
       ∧ (h - l <= t)%Q ∧ (Qabs (h - c) <= t)%Q ∧ (Qabs (l - c) <= t)%Q
       ∧ ((t == h - l)%Q ∨ (t == Qabs (h - c))%Q ∨ (t == Qabs (l - c))%Q).
Proof.
  intros Hh Hl Hc. unfold TR, py_max. rewrite Hh, Hl, Hc. cbn [fsub fabs foldl].
  destruct (max2_Fin_spec (h - l) (Qabs (h - c))) as (m1 & -> & A1 & A2 & A3).
  destruct (max2_Fin_spec m1 (Qabs (l - c))) as (m2 & -> & B1 & B2 & B3).
  exists m2. split; [done|].
  split; [lra|]. split; [lra|]. split; [lra|].
  destruct A3, B3; [left|right; right|right; left|right; right]; lra.
Qed.

Lemma greatest_range_zero (h l c t : Q) :
  (h - l <= t)%Q → (Qabs (h - c) <= t)%Q → (Qabs (l - c) <= t)%Q →
  (t == h - l)%Q ∨ (t == Qabs (h - c))%Q ∨ (t == Qabs (l - c))%Q →
  (0 <= t)%Q ∧ ((t == 0)%Q ↔ (h == c)%Q ∧ (l == c)%Q).
Proof.
  intros A1 A2 A3 Hone.
  pose proof (Qabs_nonneg (h - c)) as N1. pose proof (Qabs_nonneg (l - c)) as N2.
  split; [lra|]. split.
  - intros Hz.
    assert (Qabs (h - c) <= 0)%Q as Z1 by lra.
    assert (Qabs (l - c) <= 0)%Q as Z2 by lra.
    apply Qabs_Qle_condition in Z1, Z2. lra.
  - intros [E1 E2].
    assert (Qabs (h - c) == 0)%Q as Z1
      by (apply Qle_antisym; [apply Qabs_Qle_condition; lra|done]).
    assert (Qabs (l - c) == 0)%Q as Z2
      by (apply Qle_antisym; [apply Qabs_Qle_condition; lra|done]).
    destruct Hone as [?|[?|?]]; lra.
Qed.

(** X3. On a bar whose high, low and previous close are numbers, the true
    range is a number that is never negative; it is the greatest of
    high - low, |high - previous close| and |low - previous close|; and it
    is zero exactly when high and low both equal the previous close. *)
Theorem true_range_nonneg (r : Range) (h l c : Q) :
  r_high r = Fin h → r_low r = Fin l → r_close_prev r = Fin c →
  ∃ t, TR r = Ok (Fin t)
       ∧ (0 <= t)%Q
       ∧ (h - l <= t)%Q ∧ (Qabs (h - c) <= t)%Q ∧ (Qabs (l - c) <= t)%Q
       ∧ ((t == h - l)%Q ∨ (t == Qabs (h - c))%Q ∨ (t == Qabs (l - c))%Q)
       ∧ ((t == 0)%Q ↔ (h == c)%Q ∧ (l == c)%Q).
Proof.
  intros Hh Hl Hc.
  destruct (TR_max r h l c Hh Hl Hc) as (t & Ht & A1 & A2 & A3 & Hone).
  destruct (greatest_range_zero h l c t A1 A2 A3 Hone) as [Hnn Hz].
  exists t. split; [exact Ht|]. split; [exact Hnn|].
  split; [exact A1|]. split; [exact A2|]. split; [exact A3|].
  split; [exact Hone|exact Hz].
Qed.

Lemma true_range_nonneg_witness :
  ∃ t, TR moving_range = Ok (Fin t)
       ∧ (0 <= t)%Q
       ∧ (12 - 9 <= t)%Q ∧ (Qabs (12 - 13) <= t)%Q ∧ (Qabs (9 - 13) <= t)%Q
       ∧ ((t == 12 - 9)%Q ∨ (t == Qabs (12 - 13))%Q ∨ (t == Qabs (9 - 13))%Q)
       ∧ ((t == 0)%Q ↔ (12 == 13)%Q ∧ (9 == 13)%Q).
Proof.
  apply (true_range_nonneg moving_range 12 9 13); reflexivity.
Defined.

Lemma py_sum_nonneg (xs : list float) (acc : Q) :
  Forall (λ x, ∃ t, x = Fin t ∧ (0 <= t)%Q) xs →
  ∃ s, foldl fadd (Fin acc) xs = Fin s ∧ (acc <= s)%Q
       ∧ ((s == acc)%Q ↔ Forall (λ x, feqb x (Fin 0) = true) xs).
Proof.
  intros H. revert acc. induction H as [|x xs (t & -> & Ht) _ IH]; intros acc.
  - exists acc. split; [done|]. split; [lra|]. split; [done|reflexivity].
  - cbn [foldl fadd]. destruct (IH (acc + t)%Q) as (s & -> & Hle & Hiff).
    exists s. split; [done|]. split; [lra|].
    rewrite Forall_cons, feqb_Fin, <- Hiff. split; [|intros [? ?]; lra].
    intros E. split; lra.
Qed.

Lemma mapR_TR (window : list Range) :
  Forall (λ r, isnan (r_high r) = false ∧ isnan (r_low r) = false
               ∧ isnan (r_close_prev r) = false) window →
  ∃ trs, mapR TR window = Ok trs
    ∧ Forall (λ x, ∃ t, x = Fin t ∧ (0 <= t)%Q) trs
    ∧ (Forall (λ x, feqb x (Fin 0) = true) trs
       ↔ Forall (λ r, feqb (r_high r) (r_close_prev r) = true
                      ∧ feqb (r_low r) (r_close_prev r) = true) window).
Proof.
  induction 1 as [|r window (Hh & Hl & Hc) _ (trs & Htrs & Hpos & Hiff)].
  - exists []. split; [done|]. split; [constructor|]. split; constructor.
  - destruct (r_high r) as [|h] eqn:Eh; [done|].
    destruct (r_low r) as [|l] eqn:El; [done|].
    destruct (r_close_prev r) as [|c] eqn:Ec; [done|].
    destruct (TR_max r h l c Eh El Ec) as (t & Ht & A1 & A2 & A3 & Hone).
    destruct (greatest_range_zero h l c t A1 A2 A3 Hone) as [Hnn Hz].
    exists (Fin t :: trs). cbn [mapR]. rewrite Ht, Htrs. simpl.
    split; [done|]. split; [constructor; eauto|].
    rewrite !Forall_cons, Hiff, Eh, El, Ec, !feqb_Fin, Hz. done.
Qed.

(** X4. Given the bars of its averaging window, with prices that are
    numbers, ATR (the sum of their true ranges divided by N1 = 15) is a
    number that is never negative, and it is zero exactly when every bar of
    the window is flat (high and low equal to the previous close).  So with
    such an ATR the sizing expression raises [ZeroDivisionError] exactly
    after a window of flat bars. *)
Theorem ATR_nonneg (window : list Range) :
  Forall (λ r, isnan (r_high r) = false ∧ isnan (r_low r) = false
               ∧ isnan (r_close_prev r) = false) window →
  ∃ a, ATR_of window = Ok (Fin a)
       ∧ (0 <= a)%Q
       ∧ ((a == 0)%Q
          ↔ Forall (λ r, feqb (r_high r) (r_close_prev r) = true
                         ∧ feqb (r_low r) (r_close_prev r) = true) window)
       ∧ ∀ v, order_size v (Fin a) = Raise ZeroDivisionError
              ↔ Forall (λ r, feqb (r_high r) (r_close_prev r) = true
                             ∧ feqb (r_low r) (r_close_prev r) = true) window.
Proof.
  intros Hdef. destruct (mapR_TR window Hdef) as (trs & Htrs & Hpos & Hflat).
  destruct (py_sum_nonneg trs 0 Hpos) as (s & Hs & Hle & Hz).
  unfold ATR_of, SimpleMovingAverage, py_sum. rewrite Htrs. simpl.
  rewrite Hs. simpl.
  assert ((s / inject_Z (Z.of_nat N1) == 0)%Q ↔ (s == 0)%Q) as Hdiv.
  { change (inject_Z (Z.of_nat N1)) with 15%Q. split; intros E.
    - assert (s == s / 15 * 15)%Q as -> by (field; lra). rewrite E. lra.
    - rewrite E. reflexivity. }
  eexists. split; [done|]. split; [|split].
  - change (inject_Z (Z.of_nat N1)) with 15%Q.
    apply Qle_shift_div_l; lra.
  - by rewrite Hdiv, Hz.
  - intros v. rewrite <- Hflat, <- Hz, <- Hdiv.
    apply order_size_zero_iff.
Qed.

Lemma ATR_nonneg_witness :
  ∃ a, ATR_of (replicate 14 flat_range ++ [moving_range]) = Ok (Fin a)
       ∧ (0 <= a)%Q
       ∧ ((a == 0)%Q
          ↔ Forall (λ r, feqb (r_high r) (r_close_prev r) = true
                         ∧ feqb (r_low r) (r_close_prev r) = true)
              (replicate 14 flat_range ++ [moving_range]))
       ∧ ∀ v, order_size v (Fin a) = Raise ZeroDivisionError
              ↔ Forall (λ r, feqb (r_high r) (r_close_prev r) = true
                             ∧ feqb (r_low r) (r_close_prev r) = true)
                  (replicate 14 flat_range ++ [moving_range]).
Proof.
  apply (ATR_nonneg (replicate 14 flat_range ++ [moving_range])).
  repeat constructor.
Defined.


(** ** The crossing tests *)





Lemma flt_asym (x y : float) : flt x y = true → flt y x = false.
Proof.
  destruct x as [|a], y as [|b]; try done.
  rewrite flt_Fin, flt_false_Fin. lra.
Qed.

(** X6. The tests of [next] that cannot hold together.  A bar never gives
    both the long and the short entry signal.  With an ATR that is not
    negative, a long position never meets stop-loss together with
    take-profit or with pyramiding, and a short position never meets
    pyramiding together with stop-loss: among the tests of an open position
    only the order of pyramiding before take-profit (long) and of the signal
    exit after the two others (short) can change what [next] does. *)
Theorem exclusive_signals self b a :
  ATR b = Fin a → (0 <= a)%Q →
  long_entry_cond b && short_entry_cond b = false
  ∧ long_stop_cond self b && long_take_cond self b = false
  ∧ long_pyramid_cond self b && long_stop_cond self b = false
  ∧ short_pyramid_cond self b && short_stop_cond self b = false.
Proof.
  intros Ha Hnn. split; [|split; [|split]].
  - unfold long_entry_cond, short_entry_cond.
    destruct (flt (kdj_j_pre b) (kdj_k_pre b)) eqn:E.
    + rewrite (flt_asym _ _ E). by rewrite !andb_false_r.
    + by rewrite !andb_false_r.
  - unfold long_stop_cond, long_take_cond. rewrite Ha.
    destruct (close b) as [|c], (last_buy_price self) as [|p]; try done.
    apply not_true_iff_false. rewrite andb_true_iff. cbn [fmul fadd fsub].
    rewrite !flt_Fin. intros [? ?]. lra.
  - unfold long_pyramid_cond, long_stop_cond. rewrite Ha.
    destruct (close b) as [|c], (last_buy_price self) as [|p]; try done.
    apply not_true_iff_false. rewrite !andb_true_iff. cbn [fmul fadd fsub].
    rewrite !flt_Fin. intros [[[? _] _] ?]. lra.
  - unfold short_pyramid_cond, short_stop_cond. rewrite Ha.
    destruct (close b) as [|c], (last_buy_price self) as [|p]; try done.
    apply not_true_iff_false. rewrite !andb_true_iff. cbn [fmul fadd fsub].
    rewrite !flt_Fin. intros [[? _] ?]. lra.
Qed.

Lemma exclusive_signals_witness :
  long_entry_cond rally_bar && short_entry_cond rally_bar = false
  ∧ long_stop_cond long_at_100 rally_bar
    && long_take_cond long_at_100 rally_bar = false
  ∧ long_pyramid_cond long_at_100 rally_bar
    && long_stop_cond long_at_100 rally_bar = false
  ∧ short_pyramid_cond long_at_100 rally_bar
    && short_stop_cond long_at_100 rally_bar = false.
Proof.
  apply (exclusive_signals long_at_100 rally_bar 2); [reflexivity|].
  vm_compute. discriminate.
Defined.

(** X7. A long add is made at a close strictly above the previous entry
    reference and a short add at a close strictly below it, whenever ATR is
    not negative; either way the close becomes the new reference. *)
Theorem pyramid_moves_reference self b self' sz a :
  order self = None → ATR b = Fin a → (0 <= a)%Q →
  next self b = Ok (self', [Buy sz]) ∨ next self b = Ok (self', [Sell sz]) →
  position_size b ≠ 0 →
  last_buy_price self' = close b
  ∧ (0 < position_size b → Flt (last_buy_price self) (last_buy_price self'))
  ∧ (position_size b < 0 → Flt (last_buy_price self') (last_buy_price self)).
Proof.
  intros Hnone Ha Hnn Hn Hp. unfold next in Hn. rewrite Hnone in Hn.
  unfold _buy_more, _sell_more, _exit_all in Hn.
  destruct (Z.ltb_spec 0 (position_size b)) as [Hpos|Hnpos].
  - destruct (long_pyramid_cond self b) eqn:Ec.
    + destruct (order_size _ _); simpl in Hn; [|by destruct Hn].
      assert (self' = {| order := Some (Buy a0); last_buy_price := close b;
                         buy_count := buy_count self + 1 |}) as ->
        by (destruct Hn as [Hn|Hn]; by injection Hn as <- _).
      simpl. split; [done|]. split; [|lia]. intros _.
      unfold long_pyramid_cond in Ec. rewrite Ha in Ec.
      apply andb_prop in Ec as [[Ec _]%andb_prop _].
      destruct (close b) as [|c], (last_buy_price self) as [|p]; try done.
      cbn [fmul fadd] in Ec. unfold Flt. rewrite flt_Fin in *. lra.
    + repeat match type of Hn with
      | context [if ?c then _ else _] => destruct c
      end; destruct Hn as [Hn|Hn]; discriminate.
  - destruct (Z.ltb_spec (position_size b) 0) as [Hneg|Hnneg]; [|lia].
    destruct (short_pyramid_cond self b) eqn:Ec.
    + destruct (order_size _ _); simpl in Hn; [|by destruct Hn].
      assert (self' = {| order := Some (Sell a0); last_buy_price := close b;
                         buy_count := buy_count self + 1 |}) as ->
        by (destruct Hn as [Hn|Hn]; by injection Hn as <- _).
      simpl. split; [done|]. split; [lia|]. intros _.
      unfold short_pyramid_cond in Ec. rewrite Ha in Ec.
      apply andb_prop in Ec as [Ec _].
      destruct (close b) as [|c], (last_buy_price self) as [|p]; try done.
      cbn [fmul fsub] in Ec. unfold Flt. rewrite flt_Fin in *. lra.
    + repeat match type of Hn with
      | context [if ?c then _ else _] => destruct c
      end; destruct Hn as [Hn|Hn]; discriminate.
Qed.

Lemma pyramid_moves_reference_witness :
  last_buy_price {| order := Some (Buy 83); last_buy_price := Fin 110;
                    buy_count := 2 |} = close rally_bar
  ∧ (0 < position_size rally_bar →
     Flt (last_buy_price long_at_100)
         (last_buy_price {| order := Some (Buy 83); last_buy_price := Fin 110;
                            buy_count := 2 |}))
  ∧ (position_size rally_bar < 0 →
     Flt (last_buy_price {| order := Some (Buy 83); last_buy_price := Fin 110;
                            buy_count := 2 |})
         (last_buy_price long_at_100)).
Proof.
  apply (pyramid_moves_reference long_at_100 rally_bar _ 83 2).
  - reflexivity.
  - reflexivity.
  - vm_compute. discriminate.
  - left. vm_compute. reflexivity.
  - vm_compute. discriminate.
Defined.

(** ** A whole run *)

Lemma run_pending self bars :
  order self ≠ None → run self bars = Ok (self, []).
Proof.
  intros Hp. induction bars as [|b bars IH]; [done|].
  simpl. unfold next. destruct (order self); [|done]. simpl.
  by rewrite IH.
Qed.

Lemma next_places_pending self b self' orders :
  next self b = Ok (self', orders) → orders ≠ [] → order self' ≠ None.
Proof.
  unfold next, _buy_more, _sell_more, _enter_long, _enter_short, _exit_all.
  intros H.
  repeat match type of H with
  | context [match ?c with _ => _ end] => destruct c eqn:?
  | context [if ?c then _ else _] => destruct c eqn:?
  | context [order_size ?v ?t] =>
      destruct (order_size v t) eqn:?; simpl in H
  end; try discriminate; injection H as <- <-; done.
Qed.

(** X8. [next] never clears [self.order]: once it has made a broker call
    the attribute holds the returned order, and every later call returns at
    its first test.  So over any sequence of bars a run of [next] makes at
    most one broker call, and after that call the strategy object no longer
    changes. *)
Theorem at_most_one_order self bars self' orders :
  run self bars = Ok (self', orders) →
  (length orders ≤ 1)%nat
  ∧ (orders ≠ [] → order self' ≠ None
                   ∧ ∀ more, run self' more = Ok (self', [])).
Proof.
  revert self self' orders.
  induction bars as [|b bars IH]; intros self self' orders.
  - intros [= <- <-]. split; [simpl; lia|done].
  - simpl. destruct (next self b) as [[s1 o1]|] eqn:En; [|done]. simpl.
    destruct (run s1 bars) as [[s2 o2]|] eqn:Er; [|done]. simpl.
    intros [= <- <-].
    destruct o1 as [|o o1].
    + simpl. exact (IH _ _ _ Er).
    + pose proof (next_places_pending _ _ _ _ En) as Hp.
      rewrite run_pending in Er by (by apply Hp). injection Er as <- <-.
      rewrite app_nil_r. split.
      * destruct (next_orders _ _ _ _ En) as [?|[->|(? & _ & [->| ->])]];
          [done|simpl; lia..].
      * intros _. split; [by apply Hp|].
        intros more. apply run_pending. by apply Hp.
Qed.

Lemma at_most_one_order_witness :
  (length [Buy 83] ≤ 1)%nat
  ∧ ([Buy 83] ≠ [] →
     order {| order := Some (Buy 83); buy_count := 1;
              last_buy_price := Fin 100 |} ≠ None
     ∧ ∀ more, run {| order := Some (Buy 83); buy_count := 1;
                      last_buy_price := Fin 100 |} more
               = Ok ({| order := Some (Buy 83); buy_count := 1;
                        last_buy_price := Fin 100 |}, [])).
Proof.
  apply (at_most_one_order init [cross_bar; rally_bar; cross_bar]).
  vm_compute. reflexivity.
Defined.

End MacdKdjMore.

(** * More on the selection strategy *)

Module GrowthTrendMore.
Import FloatFacts GrowthTrend GrowthTrendFacts.

(** ** Indicators *)

(** X9. [SolvencyAbility.next] never raises: the test on [net_assets]
    keeps the division away from a zero divisor.  On a balance sheet whose
    entries are numbers it writes NaN when total assets equal total
    liabilities and (cash - short-term debt) / net assets otherwise. *)
Theorem solvency_never_raises (d : balance_sheet) :
  (∃ v, SolvencyAbility_next d = Ok v)
  ∧ ∀ b1 b2 b3 m t o ta tl,
      d = {| short_term_borrowing := Fin b1; short_term_bonds := Fin b2;
             non_current_liabilities_due_in_one_year := Fin b3;
             monetary_capital := Fin m; trading_finan_assets := Fin t;
             net_operating_cash := Fin o;
             total_assets := Fin ta; total_liabilities := Fin tl |} →
      ((ta == tl)%Q → SolvencyAbility_next d = Ok NaN)
      ∧ (¬ (ta == tl)%Q →
         SolvencyAbility_next d =
           Ok (Fin ((m + t - o - (b1 + b2 + b3)) / (ta - tl)))).
Proof.
  split.
  - unfold SolvencyAbility_next.
    destruct (fsub (total_assets d) (total_liabilities d)) as [|n];
      [simpl; eauto|].
    simpl. destruct (Qeq_bool n 0) eqn:E; simpl; [eauto|].
    destruct (fsub _ _); eauto.
  - intros b1 b2 b3 m t o ta tl ->. unfold SolvencyAbility_next. simpl.
    split; intros Hn.
    + assert (Qeq_bool (ta - tl) 0 = true) as ->
        by (apply Qeq_bool_iff; lra). done.
    + assert (Qeq_bool (ta - tl) 0 = false) as ->.
      { apply not_true_iff_false. rewrite Qeq_bool_iff. lra. }
      done.
Qed.

Lemma AccIndex_run_from fit window (pre xs : list float) (i : nat) :
  (i < length xs)%nat →
  AccIndex_run fit window (lastn window pre) xs !! i =
    Some (if decide (length (lastn window (pre ++ take (S i) xs)) = window)
          then fit (lastn window (pre ++ take (S i) xs)) else NaN).
Proof.
  revert pre i. induction xs as [|x xs IH]; intros pre i Hi.
  - simpl in Hi. lia.
  - simpl. rewrite deque_append_lastn. destruct i as [|i]; simpl.
    + by rewrite take_0.
    + rewrite IH by (simpl in Hi; lia). by rewrite <- app_assoc.
Qed.

(** X10. [AccIndex] over the successive values of [net_profit_z], from its
    empty deque: on the bar of index i (from 0) it writes NaN while fewer
    than [window] values have been seen, that is while i + 1 < window, and
    from then on the coefficient fitted on the last [window] values. *)
Theorem acceleration_window fit (window : nat) (xs : list float) (i : nat) :
  (i < length xs)%nat →
  ((S i < window)%nat → AccIndex_run fit window [] xs !! i = Some NaN)
  ∧ ((window ≤ S i)%nat →
     AccIndex_run fit window [] xs !! i =
       Some (fit (lastn window (take (S i) xs)))
     ∧ length (lastn window (take (S i) xs)) = window).
Proof.
  intros Hi. pose proof (AccIndex_run_from fit window [] xs i Hi) as H.
  change (lastn window []) with (@nil float) in H. simpl in H.
  assert (length (lastn window (take (S i) xs)) = Nat.min (S i) window)
    as Hlen.
  { unfold lastn. rewrite length_drop, length_take. lia. }
  split; intros Hw.
  - rewrite H. by rewrite decide_False by lia.
  - rewrite H. rewrite decide_True by lia. split; [done|lia].
Qed.


Lemma acceleration_window_witness :
  ((3 < 3)%nat →
   AccIndex_run py_sum 3 [] [Fin 1; Fin 4; Fin 9; Fin 16] !! 2%nat = Some NaN)
  ∧ ((3 ≤ 3)%nat →
     AccIndex_run py_sum 3 [] [Fin 1; Fin 4; Fin 9; Fin 16] !! 2%nat =
       Some (py_sum (lastn 3 (take 3 [Fin 1; Fin 4; Fin 9; Fin 16])))
     ∧ length (lastn 3 (take 3 [Fin 1; Fin 4; Fin 9; Fin 16])) = 3%nat).
Proof.
  apply (acceleration_window py_sum 3 [Fin 1; Fin 4; Fin 9; Fin 16] 2).
  simpl. lia.
Defined.

Lemma fdiv_zero (x y : float) :
  feqb y (Fin 0) = true → fdiv x y = Raise ZeroDivisionError.
Proof. destruct y as [|b]; [done|]. simpl. by intros ->. Qed.

Lemma ImprovedMTM_next_raises p history b :
  ¬ bar_ok b → ImprovedMTM_next p history b = Raise ZeroDivisionError.
Proof.
  unfold bar_ok, ImprovedMTM_next. intros Hn.
  destruct (feqb (bar_low b) (Fin 0)) eqn:El.
  - by rewrite (fdiv_zero _ _ El).
  - destruct (feqb (bar_close_prev b) (Fin 0)) eqn:Ec;
      [|exfalso; by apply Hn].
    by rewrite (fdiv_quotient _ _ El), (fdiv_zero _ _ Ec).
Qed.

Lemma ImprovedMTM_run_raises p history bars :
  Exists (λ b, ¬ bar_ok b) bars →
  ImprovedMTM_run p history bars = Raise ZeroDivisionError.
Proof.
  intros H. revert history. induction H as [b bars Hb|b bars _ IH];
    intros history.
  - simpl. by rewrite ImprovedMTM_next_raises.
  - simpl. destruct (ImprovedMTM_next p history b) as [[h out]|x] eqn:E.
    + simpl. by rewrite IH.
    + assert (¬ bar_ok b) as Hb.
      { intros Hok. by rewrite (ImprovedMTM_next_ok p history b Hok) in E. }
      rewrite (ImprovedMTM_next_raises p history b Hb) in E.
      by injection E as <-.
Qed.

(** X11. [ImprovedMTM] raises exactly when some bar has a zero low or a
    zero previous close, and then [ZeroDivisionError]; over bars without
    such a zero it returns, and its deque holds min(number of bars, period)
    values, never more than [period]. *)
Theorem momentum_errors_and_bound p bars :
  (Exists (λ b, ¬ bar_ok b) bars →
   ImprovedMTM_run p [] bars = Raise ZeroDivisionError)
  ∧ (Forall bar_ok bars →
     ∃ history outs,
       ImprovedMTM_run p [] bars = Ok (history, outs)
       ∧ length history = Nat.min (length bars) (period p)
       ∧ (length history ≤ period p)%nat)
  ∧ (∀ x, ImprovedMTM_run p [] bars = Raise x →
       x = ZeroDivisionError ∧ Exists (λ b, ¬ bar_ok b) bars).
Proof.
  split; [apply ImprovedMTM_run_raises|]. split.
  - intros Hok. destruct (ImprovedMTM_run_from p [] bars Hok)
      as (outs & Hrun & _).
    change (lastn (period p) (masked_return p <$> [])) with (@nil float)
      in Hrun.
    simpl in Hrun. eexists _, outs. split; [done|].
    unfold lastn. rewrite length_drop, length_fmap. lia.
  - intros x Hx.
    destruct (decide (Forall bar_ok bars)) as [Hok|Hno].
    + destruct (ImprovedMTM_run_from p [] bars Hok) as (outs & Hrun & _).
      change (lastn (period p) (masked_return p <$> [])) with (@nil float)
        in Hrun.
      simpl in Hrun. congruence.
    + apply not_Forall_Exists in Hno; [|intros b; unfold bar_ok; apply _].
      rewrite (ImprovedMTM_run_raises p [] bars Hno) in Hx.
      by injection Hx as <-.
Qed.

Lemma momentum_errors_and_bound_witness :
  ∃ history outs,
    ImprovedMTM_run mtm_default []
      [Scenario.calm_1; Scenario.wild; Scenario.calm_2] = Ok (history, outs)
    ∧ length history = Nat.min 3 20
    ∧ (length history ≤ 20)%nat.
Proof.
  apply (proj1 (proj2 (momentum_errors_and_bound mtm_default
           [Scenario.calm_1; Scenario.wild; Scenario.calm_2]))).
  repeat constructor.
Defined.

(** ** The rebalance scheduler *)

Lemma in_target (m d : Z) :
  (m, d) ∈ target
  ↔ (m = 1 ∧ d = 31) ∨ (m = 4 ∧ d = 30) ∨ (m = 7 ∧ d = 15)
    ∨ (m = 8 ∧ d = 31) ∨ (m = 10 ∧ d = 31).
Proof.
  unfold target. rewrite !elem_of_union, !elem_of_singleton.
  split.
  - intros [[[[H|H]|H]|H]|H]; injection H as -> ->; tauto.
  - intros [[-> ->]|[[-> ->]|[[-> ->]|[[-> ->]|[-> ->]]]]]; tauto.
Qed.

Lemma in_rebalance_days (m d : Z) :
  (m, d) ∈ rebalance_days
  ↔ (m = 2 ∧ d = 1) ∨ (m = 5 ∧ d = 1) ∨ (m = 7 ∧ d = 16)
    ∨ (m = 9 ∧ d = 1) ∨ (m = 11 ∧ d = 1).
Proof.
  unfold rebalance_days. rewrite !elem_of_union, !elem_of_singleton.
  split.
  - intros [[[[H|H]|H]|H]|H]; injection H as -> ->; tauto.
  - intros [[-> ->]|[[-> ->]|[[-> ->]|[[-> ->]|[-> ->]]]]]; tauto.
Qed.

Lemma fires_on_rebalance_days (dt : date) :
  valid_date dt →
  (∃ y, prev_day dt = Ok y ∧ (month y, day y) ∈ target)
  ↔ (month dt, day dt) ∈ rebalance_days.
Proof.
  destruct dt as [Y M D]. unfold valid_date, prev_day. simpl.
  intros (HY & HM & HD). rewrite in_rebalance_days.
  assert (M = 1 ∨ M = 2 ∨ M = 3 ∨ M = 4 ∨ M = 5 ∨ M = 6 ∨ M = 7 ∨ M = 8
          ∨ M = 9 ∨ M = 10 ∨ M = 11 ∨ M = 12) as HM' by lia.
  unfold days_in_month in *.
  destruct HM' as [->|[->|[->|[->|[->|[->|[->|[->|[->|[->|[->| ->]]]]]]]]]]];
    simpl in *; try destruct (is_leap Y);
    destruct (Z.ltb_spec 1 D) as [HD1|HD1];
    try destruct (Z.ltb_spec 1 Y) as [HY1|HY1];
    (split;
     [ intros (y & Hy1 & Hy2); try discriminate Hy1;
       injection Hy1 as <-; simpl in Hy2; apply in_target in Hy2; lia
     | intros H; try (exfalso; lia);
       eexists; (split; [done|]); apply in_target; simpl; lia ]).
Qed.

(** X12. For a date of the calendar, the scheduler's test (the month and
    day of the previous day are in [target]) holds exactly on 1 February,
    1 May, 16 July, 1 September and 1 November, in leap years and others. *)
Theorem trigger_dates (dt : date) :
  valid_date dt →
  ((∃ y, prev_day dt = Ok y ∧ (month y, day y) ∈ target)
   ↔ (month dt, day dt) ∈ rebalance_days)
  ∧ ((month dt, day dt) ∈ rebalance_days
     ↔ (month dt = 2 ∧ day dt = 1) ∨ (month dt = 5 ∧ day dt = 1)
       ∨ (month dt = 7 ∧ day dt = 16) ∨ (month dt = 9 ∧ day dt = 1)
       ∨ (month dt = 11 ∧ day dt = 1)).
Proof.
  intros Hv. split; [by apply fires_on_rebalance_days|].
  apply in_rebalance_days.
Qed.

Lemma trigger_dates_witness :
  ((∃ y, prev_day Scenario.feb_1 = Ok y ∧ (month y, day y) ∈ target)
   ↔ (month Scenario.feb_1, day Scenario.feb_1) ∈ rebalance_days)
  ∧ ((month Scenario.feb_1, day Scenario.feb_1) ∈ rebalance_days
     ↔ (month Scenario.feb_1 = 2 ∧ day Scenario.feb_1 = 1)
       ∨ (month Scenario.feb_1 = 5 ∧ day Scenario.feb_1 = 1)
       ∨ (month Scenario.feb_1 = 7 ∧ day Scenario.feb_1 = 16)
       ∨ (month Scenario.feb_1 = 9 ∧ day Scenario.feb_1 = 1)
       ∨ (month Scenario.feb_1 = 11 ∧ day Scenario.feb_1 = 1)).
Proof.
  apply (trigger_dates Scenario.feb_1). vm_compute. intuition discriminate.
Defined.

(** X13. What [next] does on a date of the calendar.  On a date that is not
    one of the five rebalance days (and is not 0001-01-01) it returns the
    object unchanged and places no order.  On a rebalance day on which no
    rebalance has been recorded it runs [rebalance] and records the date;
    when [rebalance] raises, the exception leaves [next] and the date is not
    recorded.  On 0001-01-01 the date subtraction raises
    [OverflowError]. *)
Theorem next_by_date percentile self dt datas :
  valid_date dt →
  ((month dt, day dt) ∉ rebalance_days →
   (1 < year dt ∨ 1 < month dt ∨ 1 < day dt) →
   next percentile self dt datas = Ok (self, []))
  ∧ ((month dt, day dt) ∈ rebalance_days →
     last_rebalance self ≠ Some dt →
     next percentile self dt datas =
       match rebalance percentile self datas with
       | Ok orders =>
           Ok ({| p := p self; last_rebalance := Some dt;
                  target_pct := target_pct self |}, orders)
       | Raise x => Raise x
       end)
  ∧ (year dt = 1 → month dt = 1 → day dt = 1 →
     last_rebalance self ≠ Some dt →
     next percentile self dt datas = Raise OverflowError).
Proof.
  intros Hv. pose proof (fires_on_rebalance_days dt Hv) as Hf.
  unfold next. split; [|split].
  - intros Hno Hmin.
    destruct (decide (last_rebalance self = Some dt)); [done|].
    destruct (prev_day dt) as [y|] eqn:Ey.
    + simpl. rewrite decide_False; [done|].
      intros Hy. apply Hno, Hf. eauto.
    + exfalso. unfold prev_day in Ey.
      destruct (Z.ltb_spec 1 (day dt)); [discriminate|].
      destruct (Z.ltb_spec 1 (month dt)); [discriminate|].
      destruct (Z.ltb_spec 1 (year dt)); [discriminate|]. lia.
  - intros Hyes Hlast. rewrite decide_False by done.
    apply Hf in Hyes as (y & -> & Hy). simpl.
    rewrite decide_True by done. by destruct (rebalance _ _ _).
  - intros HY HM HD Hlast. rewrite decide_False by done.
    unfold prev_day. rewrite HY, HM, HD. done.
Qed.

Lemma next_by_date_witness :
  ((month Scenario.feb_1, day Scenario.feb_1) ∉ rebalance_days →
   (1 < year Scenario.feb_1 ∨ 1 < month Scenario.feb_1
    ∨ 1 < day Scenario.feb_1) →
   next np_percentile Scenario.fresh Scenario.feb_1 Scenario.three
   = Ok (Scenario.fresh, []))
  ∧ ((month Scenario.feb_1, day Scenario.feb_1) ∈ rebalance_days →
     last_rebalance Scenario.fresh ≠ Some Scenario.feb_1 →
     next np_percentile Scenario.fresh Scenario.feb_1 Scenario.three =
       match rebalance np_percentile Scenario.fresh Scenario.three with
       | Ok orders =>
           Ok ({| p := p Scenario.fresh;
                  last_rebalance := Some Scenario.feb_1;
                  target_pct := target_pct Scenario.fresh |}, orders)
       | Raise x => Raise x
       end)
  ∧ (year Scenario.feb_1 = 1 → month Scenario.feb_1 = 1 →
     day Scenario.feb_1 = 1 →
     last_rebalance Scenario.fresh ≠ Some Scenario.feb_1 →
     next np_percentile Scenario.fresh Scenario.feb_1 Scenario.three
     = Raise OverflowError).
Proof.
  apply (next_by_date np_percentile Scenario.fresh Scenario.feb_1
           Scenario.three).
  vm_compute. intuition discriminate.
Defined.


(** ** The stages of [rebalance] *)

Lemma ranked_empty self datas : ranked self datas [] = Raise ValueError.
Proof. reflexivity. Qed.

(** X14. [rebalance] cannot rank an empty eligible set: [norm] calls [min]
    on an empty list and [ValueError] leaves [rebalance].  This is what
    happens for every universe of fewer than 6 instruments, whose base pool
    is empty: [rebalance] raises whatever the percentile function does, and
    raises [ValueError] when the percentile of the empty list is a value. *)
Theorem empty_pool_raises percentile self datas :
  NoDup (_name <$> datas) →
  (∀ base, base_pool datas = Ok base →
     eligible_set percentile self datas base = Ok [] →
     select_final percentile self datas = Raise ValueError
     ∧ rebalance percentile self datas = Raise ValueError)
  ∧ ((length datas < 6)%nat →
     (∃ x, rebalance percentile self datas = Raise x)
     ∧ (∀ t, percentile [] 90%Q = Ok t →
          rebalance percentile self datas = Raise ValueError)).
Proof.
  intros Hnd. split.
  - intros base Hbase Hel. unfold rebalance, select_final.
    rewrite Hbase. simpl. by rewrite Hel.
  - intros Hlen. unfold rebalance, select_final, eligible_set.
    rewrite (base_pool_closed datas Hnd), (pool_small datas Hlen). simpl.
    destruct (percentile [] 90%Q) as [t|x] eqn:Ep; simpl.
    + destruct (_ <? _); simpl; (split; [eauto|]); by intros ? _.
    + split; [eauto|]. by intros ?.
Qed.

Lemma empty_pool_raises_witness :
  (∀ base, base_pool Scenario.three = Ok base →
     eligible_set np_percentile Scenario.fresh Scenario.three base = Ok [] →
     select_final np_percentile Scenario.fresh Scenario.three
     = Raise ValueError
     ∧ rebalance np_percentile Scenario.fresh Scenario.three
       = Raise ValueError)
  ∧ ((length Scenario.three < 6)%nat →
     (∃ x, rebalance np_percentile Scenario.fresh Scenario.three = Raise x)
     ∧ (∀ t, np_percentile [] 90%Q = Ok t →
          rebalance np_percentile Scenario.fresh Scenario.three
          = Raise ValueError)).
Proof.
  apply (empty_pool_raises np_percentile Scenario.fresh Scenario.three).
  apply (bool_decide_unpack _). vm_compute. exact I.
Defined.





Lemma select_final_inv percentile self datas final :
  NoDup (_name <$> datas) →
  select_final percentile self datas = Ok final →
  NoDup final
  ∧ (length final ≤ Z.to_nat (selnum_final (p self)))%nat
  ∧ ∀ n, n ∈ final →
      ∃ d, d ∈ pool datas ∧ _name d = n ∧ halted d = false.
Proof.
  intros Hnd. unfold select_final.
  rewrite (base_pool_closed datas Hnd). simpl.
  destruct (eligible_set percentile self datas (_name <$> pool datas))
    as [eligible|] eqn:Eel; [|done]. simpl.
  destruct (ranked self datas eligible) as [comp|] eqn:Ecomp; [|done]. simpl.
  destruct (ranked_names _ _ _ _ Ecomp) as (comp0 & Hsort & Hnames).
  assert (comp.*1 ≡ₚ eligible) as Hperm
    by (by rewrite Hsort, sorted_desc_perm, Hnames).
  apply eligible_set_sublist in Eel as Hsub.
  assert (∀ n, n ∈ comp.*1 → ∃ d, d ∈ pool datas ∧ _name d = n) as Hfeed.
  { intros n Hn. rewrite Hperm in Hn.
    pose proof (elem_of_sublist _ _ _ Hn Hsub) as Hb.
    apply list_elem_of_fmap in Hb as (d & -> & Hd). by exists d. }
  rewrite walk_closed; cycle 1.
  { intros n (d & Hd & <-)%Hfeed. exists d.
    by apply next_data_lookup, pool_in. }
  simpl. rewrite Z.sub_0_r. intros [= <-]. split; [|split].
  - apply (sublist_NoDup _ (comp.*1)).
    + rewrite Hperm. apply (sublist_NoDup _ (_name <$> pool datas)); [|done].
      apply (submseteq_NoDup_l _ (_name <$> datas)); [|done].
      apply fmap_submseteq. etrans; [apply pool_submseteq|].
      apply third_submseteq.
    + etrans; [apply sublist_take|apply sublist_filter].
  - rewrite length_take. lia.
  - intros n Hn.
    pose proof (elem_of_sublist _ _ _ Hn (sublist_take _ _)) as Hn'.
    apply list_elem_of_filter in Hn' as [Ht (d & Hd & <-)%Hfeed].
    exists d. split; [done|]. split; [done|].
    unfold tradable in Ht.
    rewrite (next_data_lookup _ _ Hnd (pool_in _ _ Hd)) in Ht.
    by apply negb_true_iff in Ht.
Qed.





Lemma sum_targets (sel : feed → bool) (t acc : Q) (l : list feed) :
  ∃ s, foldl fadd (Fin acc) ((λ d, if sel d then Fin t else Fin 0) <$> l)
       = Fin s
       ∧ (s == acc + inject_Z (Z.of_nat
                      (length (filter (λ d, sel d = true) l))) * t)%Q.
Proof.
  revert acc. induction l as [|d l IH]; intros acc.
  - exists acc. split; [done|]. rewrite filter_nil.
    change (inject_Z (Z.of_nat (length (@nil feed)))) with 0%Q. lra.
  - rewrite fmap_cons, filter_cons. cbn [foldl]. destruct (sel d) eqn:E.
    + rewrite decide_True by done. cbn [fadd].
      destruct (IH (acc + t)%Q) as (s & -> & Hs). exists s. split; [done|].
      rewrite Hs. cbn [length]. rewrite Nat2Z.inj_succ, <- Z.add_1_r.
      rewrite inject_Z_plus. change (inject_Z 1) with 1%Q. lra.
    + rewrite decide_False by done. cbn [fadd].
      destruct (IH (acc + 0)%Q) as (s & -> & Hs). exists s. split; [done|].
      rewrite Hs. lra.
Qed.

Lemma selected_count datas (final : list string) :
  NoDup (_name <$> datas) → NoDup final →
  (length (filter (λ d, bool_decide (_name d ∈ final) = true) datas)
   ≤ length final)%nat.
Proof.
  intros Hnd Hf.
  rewrite <- (length_fmap _name (filter _ datas)).
  apply submseteq_length, NoDup_submseteq.
  - apply (submseteq_NoDup_l _ (_name <$> datas)); [|done].
    apply fmap_submseteq, sublist_submseteq, sublist_filter.
  - intros n (d & -> & Hd)%list_elem_of_fmap.
    apply list_elem_of_filter in Hd as [Hd _].
    by apply bool_decide_eq_true in Hd.
Qed.

(** X17. For a strategy built by [__init__] with a reserve that is a
    number not above 1, and distinct instrument names, the targets that a
    rebalance orders add up to a number between 0 and 1 - reserve: the
    selection never over-allocates the portfolio. *)
Theorem allocation_bounded percentile prm self datas orders (r : Q) :
  init prm = Ok self →
  reserve prm = Fin r → (r <= 1)%Q →
  NoDup (_name <$> datas) →
  rebalance percentile self datas = Ok orders →
  ∃ s, py_sum orders.*2 = Fin s ∧ (0 <= s <= 1 - r)%Q.
Proof.
  intros Hinit Hr Hr1 Hnd. unfold init in Hinit. rewrite Hr in Hinit.
  cbn [fsub fdiv] in Hinit.
  destruct (Qeq_bool (inject_Z (selnum_final prm)) 0) eqn:EN; [done|].
  simpl in Hinit. injection Hinit as <-. unfold rebalance.
  destruct (select_final _ _ _) as [final|] eqn:Ef; [|done]. simpl.
  intros [= <-].
  destruct (select_final_inv _ _ _ _ Hnd Ef) as (Hfd & Hlen & _).
  simpl in Hlen. rewrite <- list_fmap_compose. unfold py_sum.
  destruct (sum_targets (λ d, bool_decide (_name d ∈ final))
              ((1 - r) / inject_Z (selnum_final prm)) 0 datas)
    as (s & Hs & Es).
  exists s. split; [exact Hs|].
  pose proof (selected_count datas final Hnd Hfd) as Hk.
  set (k := length (filter _ datas)) in *.
  set (N := selnum_final prm) in *.
  apply Qeq_bool_neq in EN.
  destruct (Z_lt_le_dec 0 N) as [HN|HN].
  - assert (0 < inject_Z N)%Q as HNq
      by (change 0%Q with (inject_Z 0); by rewrite <- Zlt_Qlt).
    assert (inject_Z (Z.of_nat k) <= inject_Z N)%Q as Hkq
      by (rewrite <- Zle_Qle; lia).
    assert (0 <= inject_Z (Z.of_nat k))%Q as Hk0
      by (change 0%Q with (inject_Z 0); rewrite <- Zle_Qle; lia).
    set (w := ((1 - r) / inject_Z N)%Q) in *.
    assert (0 <= w)%Q as Hw by (apply Qle_shift_div_l; lra).
    assert (w * inject_Z N == 1 - r)%Q as HwN by (unfold w; field; lra).
    assert (0 <= inject_Z (Z.of_nat k) * w)%Q
      by (apply Qmult_le_0_compat; lra).
    assert (0 <= (inject_Z N - inject_Z (Z.of_nat k)) * w)%Q
      by (apply Qmult_le_0_compat; lra).
    split; lra.
  - assert (k = 0%nat) as Hk0 by lia. rewrite Hk0 in Es.
    change (inject_Z (Z.of_nat 0)) with 0%Q in Es.
    rewrite Qmult_0_l in Es. split; lra.
Qed.

Lemma allocation_bounded_witness :
  ∃ s, py_sum Scenario.feb_orders.*2 = Fin s ∧ (0 <= s <= 1 - 0.05)%Q.
Proof.
  apply (allocation_bounded np_percentile default_params Scenario.fresh
           Scenario.twelve Scenario.feb_orders 0.05).
  - reflexivity.
  - reflexivity.
  - vm_compute. discriminate.
  - apply (bool_decide_unpack _). vm_compute. exact I.
  - vm_compute. reflexivity.
Defined.

(** ** Normalisation and ranking *)

(** X18. [norm] keeps the order of the defined values: a value that is not
    greater has a normalised value that is not greater.  When the defined
    values are not all equal, the smallest is normalised to 0 and the
    greatest to 100. *)
Theorem norm_monotone (arr out : list float) (i : nat) (a : Q) :
  norm arr = Ok out →
  arr !! i = Some (Fin a) →
  ∃ x, out !! i = Some (Fin x)
    ∧ (∀ j b, arr !! j = Some (Fin b) → (a <= b)%Q →
         ∃ y, out !! j = Some (Fin y) ∧ (x <= y)%Q)
    ∧ ((∃ c, Fin c ∈ arr ∧ ¬ (c == a)%Q) →
       ((∀ c, Fin c ∈ arr → (a <= c)%Q) → (x == 0)%Q)
       ∧ ((∀ c, Fin c ∈ arr → (c <= a)%Q) → (x == 100)%Q)).
Proof.
  intros Hn Hi.
  assert (Fin a ∈ arr) as Ha by (apply list_elem_of_lookup; eauto).
  destruct (min_max_defined arr (ex_intro _ a Ha))
    as (mn & mx & Hmn & Hmx & Imn & Imx & Hb).
  rewrite (norm_closed arr mn mx Hmn Hmx) in Hn. injection Hn as <-.
  pose proof (Hb a Ha) as Hba.
  assert (∀ v, (mn <= v <= mx)%Q → ¬ (mn == mx)%Q →
            (0 < mx - mn)%Q) as Hpos by (intros; lra).
  unfold scale. destruct (Qeq_bool mn mx) eqn:E.
  - apply Qeq_bool_eq in E. exists 50%Q.
    split; [by rewrite list_lookup_fmap, Hi|]. split.
    + intros j b Hj _. exists 50%Q.
      split; [by rewrite list_lookup_fmap, Hj|lra].
    + intros (c & Hc & Hne). exfalso. apply Hne.
      pose proof (Hb c Hc). lra.
  - apply Qeq_bool_neq in E. eexists.
    split; [by rewrite list_lookup_fmap, Hi|]. split.
    + intros j b Hj Hab. eexists.
      split; [by rewrite list_lookup_fmap, Hj|].
      assert (Fin b ∈ arr) as Hbin by (apply list_elem_of_lookup; eauto).
      pose proof (Hb b Hbin).
      apply Qmult_le_compat_r; [|lra].
      apply Qmult_le_compat_r; [lra|].
      apply Qinv_le_0_compat. lra.
    + intros _. split; intros Hext.
      * assert (a == mn)%Q as -> by (pose proof (Hext mn Imn); lra).
        field. lra.
      * assert (a == mx)%Q as -> by (pose proof (Hext mx Imx); lra).
        field. lra.
Qed.

Lemma norm_monotone_witness :
  ∃ x, Scenario.factor_normalised !! 2%nat = Some (Fin x)
    ∧ (∀ j b, Scenario.factor_values !! j = Some (Fin b) → (1 <= b)%Q →
         ∃ y, Scenario.factor_normalised !! j = Some (Fin y) ∧ (x <= y)%Q)
    ∧ ((∃ c, Fin c ∈ Scenario.factor_values ∧ ¬ (c == 1)%Q) →
       ((∀ c, Fin c ∈ Scenario.factor_values → (1 <= c)%Q) → (x == 0)%Q)
       ∧ ((∀ c, Fin c ∈ Scenario.factor_values → (c <= 1)%Q) →
          (x == 100)%Q)).
Proof.
  apply (norm_monotone Scenario.factor_values Scenario.factor_normalised 2 1).
  - vm_compute. reflexivity.
  - reflexivity.
Defined.

Lemma insert_by_sorted (f : feed → float) x l :
  isnan (f x) = false → Forall (λ y, isnan (f y) = false) l →
  StronglySorted (λ a b, Fle (f b) (f a)) l →
  StronglySorted (λ a b, Fle (f b) (f a)) (insert_by f x l).
Proof.
  intros Hx Hl Hs. induction Hs as [|y l Hs IH Hy]; simpl.
  - repeat constructor.
  - apply Forall_cons in Hl as [Hy' Hl].
    destruct (flt (f x) (f y)) eqn:E.
    + constructor; [by apply IH|].
      rewrite insert_by_perm. constructor; [|done].
      destruct (f x) as [|a], (f y) as [|b]; try done.
      apply flt_Fin in E. apply fle_Fin. lra.
    + constructor; [by constructor|].
      assert (Fle (f y) (f x)) as Hyx.
      { destruct (f x) as [|a], (f y) as [|b]; try done.
        apply flt_false_Fin in E. by apply fle_Fin. }
      constructor; [done|].
      eapply Forall_impl; [exact Hy|]. simpl. intros z Hz.
      destruct (f x) as [|a], (f y) as [|b], (f z) as [|c]; try done.
      unfold Fle in *. rewrite fle_Fin in *. lra.
Qed.

Lemma rank_by_sorted (f : feed → float) l :
  Forall (λ y, isnan (f y) = false) l →
  StronglySorted (λ a b, Fle (f b) (f a)) (rank_by f l).
Proof.
  induction 1 as [|x l Hx Hl IH]; [constructor|].
  change (rank_by f (x :: l)) with (insert_by f x (rank_by f l)).
  apply insert_by_sorted; [done| |done]. by rewrite rank_by_perm.
Qed.

Lemma take_dominates (f : feed → float) (n : nat) (l : list feed) d d' :
  StronglySorted (λ a b, Fle (f b) (f a)) l →
  d ∈ take n l → d' ∈ l → d' ∉ take n l → Fle (f d') (f d).
Proof.
  intros Hs Hd Hd' Hn. rewrite <- (take_drop n l) in Hs, Hd'.
  apply elem_of_app in Hd' as [?|Hd']; [done|].
  by apply (StronglySorted_app_1_elem_of _ _ _ d d' Hs).
Qed.

(** X19. The two rankings of the base pool, with distinct names.  When no
    TTM growth is NaN, the top third holds exactly a third of the universe
    (rounded down) and each of its instruments has TTM growth at least that
    of every instrument left out.  Each instrument of the base pool has
    acceleration at least that of every instrument of the top third with
    positive acceleration that is left out of the base pool. *)
Theorem rankings_dominate datas top base :
  NoDup (_name <$> datas) →
  top_third datas = Ok top →
  base_pool datas = Ok base →
  (Forall (λ d, isnan (ttm d) = false) datas →
   length top = (length datas / 3)%nat
   ∧ ∀ d d', d ∈ datas → d' ∈ datas → _name d ∈ top → _name d' ∉ top →
       Fle (ttm d') (ttm d))
  ∧ (∀ d d', d ∈ datas → d' ∈ datas → _name d ∈ base → _name d' ∈ top →
       Flt (Fin 0) (acc d') → _name d' ∉ base → Fle (acc d') (acc d)).
Proof.
  intros Hnd Htop Hbase.
  rewrite (top_third_closed datas Hnd) in Htop. injection Htop as <-.
  rewrite (base_pool_closed datas Hnd) in Hbase. injection Hbase as <-.
  assert (∀ (l : list feed) d, (∀ x, x ∈ l → x ∈ datas) → d ∈ datas →
            _name d ∈ _name <$> l ↔ d ∈ l) as Hname.
  { intros l d Hl Hd. split; [|by apply list_elem_of_fmap_2].
    intros (d0 & E & Hd0)%list_elem_of_fmap.
    by rewrite (feed_of_name datas d d0 Hnd Hd (Hl _ Hd0) E). }
  split.
  - intros Hdef. split.
    + unfold third. rewrite length_fmap, length_take.
      rewrite (Permutation_length (rank_by_perm ttm datas)).
      pose proof (Nat.Div0.div_le_upper_bound (length datas) 3 (length datas)).
      lia.
    + intros d d' Hd Hd' Hin Hout.
      rewrite (Hname _ _ (third_in datas) Hd) in Hin.
      rewrite (Hname _ _ (third_in datas) Hd') in Hout.
      apply (take_dominates ttm (length datas / 3) (rank_by ttm datas));
        [by apply rank_by_sorted|done|by rewrite rank_by_perm|done].
  - intros d d' Hd Hd' Hin Htop Hacc Hout.
    rewrite (Hname _ _ (pool_in datas) Hd) in Hin.
    rewrite (Hname _ _ (pool_in datas) Hd') in Hout.
    rewrite (Hname _ _ (third_in datas) Hd') in Htop.
    unfold pool in Hin, Hout.
    set (rem := filter (λ d, flt (Fin 0) (acc d) = true) (third datas)) in *.
    apply (take_dominates acc (length rem / 2) (rank_by acc rem));
      [|done| |done].
    + apply rank_by_sorted, Forall_forall.
      intros x [Hx _]%list_elem_of_filter. by destruct (acc x).
    + rewrite rank_by_perm. by apply list_elem_of_filter.
Qed.

Lemma rankings_dominate_witness :
  (Forall (λ d, isnan (ttm d) = false) Scenario.twelve →
   length ["X"; "Y"; "Z"; "W"] = (length Scenario.twelve / 3)%nat
   ∧ ∀ d d', d ∈ Scenario.twelve → d' ∈ Scenario.twelve →
       _name d ∈ ["X"; "Y"; "Z"; "W"] → _name d' ∉ ["X"; "Y"; "Z"; "W"] →
       Fle (ttm d') (ttm d))
  ∧ (∀ d d', d ∈ Scenario.twelve → d' ∈ Scenario.twelve →
       _name d ∈ ["X"; "Y"] → _name d' ∈ ["X"; "Y"; "Z"; "W"] →
       Flt (Fin 0) (acc d') → _name d' ∉ ["X"; "Y"] →
       Fle (acc d') (acc d)).
Proof.
  apply (rankings_dominate Scenario.twelve ["X"; "Y"; "Z"; "W"] ["X"; "Y"]).
  - apply (bool_decide_unpack _). vm_compute. exact I.
  - vm_compute. reflexivity.
  - vm_compute. reflexivity.
Defined.


Lemma norm_ok_or_value_error (arr : list float) :
  ((∃ a, Fin a ∈ arr)
   ∧ ∃ out, norm arr = Ok out ∧ length out = length arr)
  ∨ ((∀ a, Fin a ∉ arr) ∧ norm arr = Raise ValueError).
Proof.
  destruct (defined_or_not arr) as [Hex|Hno].
  - left. split; [done|].
    destruct (min_max_defined arr Hex) as (mn & mx & Hmn & Hmx & _).
    exists (scale mn mx <$> arr).
    split; [by apply norm_closed|by rewrite length_fmap].
  - right. split; [done|]. unfold norm. by rewrite min_max_undefined.
Qed.

Lemma column_then_norm f datas (l : list feed) :
  NoDup (_name <$> datas) → (∀ d, d ∈ l → d ∈ datas) →
  column (line_dict f datas) (_name <$> l) ≫= norm = norm (f <$> l).
Proof. intros Hnd Hl. by rewrite (column_names f datas l Hnd Hl). Qed.

Lemma factor_defined (f : feed → float) (l : list feed) :
  (∃ a, Fin a ∈ f <$> l) ↔ ∃ d, d ∈ l ∧ isnan (f d) = false.
Proof.
  split.
  - intros (a & Ha). apply list_elem_of_fmap in Ha as (d & E & Hd).
    exists d. split; [done|]. by rewrite <- E.
  - intros (d & Hd & Hn). destruct (f d) as [|a] eqn:E; [done|].
    exists a. rewrite <- E. by apply list_elem_of_fmap_2.
Qed.

Lemma mapR_ok {A B} (f : A → result B) (l : list A) :
  (∀ x, x ∈ l → ∃ y, f x = Ok y) → ∃ l', mapR f l = Ok l'.
Proof.
  induction l as [|x l IH]; intros Hf; [by exists []|].
  destruct (Hf x) as [y Hy]; [left|].
  destruct IH as [l' Hl']; [intros x' Hx'; apply Hf; by right|].
  exists (y :: l'). simpl. by rewrite Hy, Hl'.
Qed.

Lemma at_index_ok (l : list float) (i : nat) :
  (i < length l)%nat → ∃ x, at_index l i = Ok x.
Proof.
  intros Hi. unfold at_index.
  destruct (lookup_lt_is_Some_2 l i Hi) as [x ->]. by exists x.
Qed.

Lemma imap_pair_index (l : list string) (i : nat) (n : string) :
  (i, n) ∈ imap pair l → (i < length l)%nat.
Proof.
  intros (j & x & [= -> ->] & Hj)%elem_of_lookup_imap.
  by apply lookup_lt_Some in Hj.
Qed.

(** X20. When [rebalance] can rank the eligible set (distinct names).  If
    each of the nine factors has a value that is not NaN for at least one
    eligible instrument, normalisation and scoring return a ranking with
    one entry per eligible instrument.  If one of the nine factors is NaN
    for every eligible instrument, [ValueError] leaves [rebalance]. *)
Theorem ranking_errors self datas (l : list feed) :
  NoDup (_name <$> datas) → (∀ d, d ∈ l → d ∈ datas) →
  (Forall (λ f : feed → float, ∃ d, d ∈ l ∧ isnan (f d) = false)
     [ttm; acc; npap; solv; roe; vol; mtm; rev; gro] →
   ∃ comp, ranked self datas (_name <$> l) = Ok comp
           ∧ comp.*1 ≡ₚ _name <$> l)
  ∧ (Exists (λ f : feed → float, ∀ d, d ∈ l → isnan (f d) = true)
       [ttm; acc; npap; solv; roe; vol; mtm; rev; gro] →
     ranked self datas (_name <$> l) = Raise ValueError).
Proof.
  intros Hnd Hl.
  assert (∀ f, (∀ d, d ∈ l → isnan (f d) = true) →
            norm (f <$> l) = Raise ValueError) as Hbad.
  { intros f Hf. destruct (norm_ok_or_value_error (f <$> l))
      as [[(d & Hd & Hn)%factor_defined _]|[_ ?]]; [|done].
    rewrite (Hf d Hd) in Hn. done. }
  split.
  - intros Hall.
    assert (∃ comp, ranked self datas (_name <$> l) = Ok comp) as [comp Hc].
    { unfold ranked. rewrite !(column_then_norm _ datas l Hnd Hl).
      repeat match goal with
      | H : Forall _ (_ :: _) |- _ => apply Forall_cons in H as [? H]
      end.
      repeat match goal with
      | H : ∃ d, d ∈ l ∧ isnan (?f d) = false |- _ =>
          apply factor_defined in H;
          destruct (norm_ok_or_value_error (f <$> l))
            as [[_ (? & -> & ?)]|[Hno _]]; [clear H|by destruct H as [? ?%Hno]]
      end.
      simpl.
      match goal with
      | |- ∃ comp, (mapR ?f ?xs ≫= _) = _ =>
          destruct (mapR_ok f xs) as [comp0 ->]; [|by eexists]
      end.
      intros [i n] Hin%imap_pair_index. rewrite length_fmap in Hin.
      repeat match goal with
      | Hlen : length ?o = length (_ <$> l) |- context [at_index ?o i] =>
          destruct (at_index_ok o i) as [? ->];
            [rewrite Hlen, length_fmap; lia|]; clear Hlen; simpl
      end.
      by eexists. }
    exists comp. split; [done|].
    destruct (ranked_names _ _ _ _ Hc) as (comp0 & -> & <-).
    by rewrite sorted_desc_perm.
  - intros Hex. unfold ranked.
    rewrite !(column_then_norm _ datas l Hnd Hl).
    repeat match goal with
    | H : Exists _ (_ :: _) |- _ => apply Exists_cons in H as [H|H]
    | H : Exists _ [] |- _ => by apply Exists_nil in H
    end;
    repeat match goal with
    | |- (norm (?f <$> l) ≫= _) = _ =>
        first [ rewrite (Hbad f) by done; reflexivity
              | destruct (norm_ok_or_value_error (f <$> l))
                  as [[_ (? & -> & _)]|[_ ->]]; [simpl|reflexivity] ]
    end.
Qed.

Lemma ranking_errors_witness :
  (Forall (λ f : feed → float,
             ∃ d, d ∈ take 2 Scenario.twelve ∧ isnan (f d) = false)
     [ttm; acc; npap; solv; roe; vol; mtm; rev; gro] →
   ∃ comp, ranked Scenario.fresh Scenario.twelve
             (_name <$> take 2 Scenario.twelve) = Ok comp
           ∧ comp.*1 ≡ₚ _name <$> take 2 Scenario.twelve)
  ∧ (Exists (λ f : feed → float,
               ∀ d, d ∈ take 2 Scenario.twelve → isnan (f d) = true)
       [ttm; acc; npap; solv; roe; vol; mtm; rev; gro] →
     ranked Scenario.fresh Scenario.twelve
       (_name <$> take 2 Scenario.twelve) = Raise ValueError).
Proof.
  apply (ranking_errors Scenario.fresh Scenario.twelve
           (take 2 Scenario.twelve)).
  - apply (bool_decide_unpack _). vm_compute. exact I.
  - intros d Hd. apply (elem_of_submseteq _ _ _ Hd), submseteq_take.
Defined.



End GrowthTrendMore.
